(** * SGS::XMLReader: a pull-style element queue over a push-style XML tokenizer

    Shallow embedding of [csrc/cppapi/Source/XMLParser/XMLReader.cpp].

    The reader owns an expat parser and borrows a byte stream.  [Parse]
    reads chunks from the stream and feeds them to expat, whose callbacks
    ([XMLAdapter]) allocate one [XMLElement] per event and append its
    address to the pending list [mElements].  [IsEOF] and [ReadElement]
    are the public pull interface.

    The two collaborators that are not part of this file of the program,
    the byte stream ([Platform/IStream.h]) and the expat library
    ([expat.h]), are interfaces here: type classes whose operations the
    reader calls.  The free store is explicit: elements live in a heap
    indexed by addresses, and the reader holds addresses, as the C++
    object holds pointers. *)

From Stdlib Require Import ZArith Lia Strings.String Strings.Byte Lists.List.
From stdpp Require Import gmap strings list fin_maps relations.

Local Open Scope nat_scope.

(** ** Data model *)

(** [std::wstring] and [const XML_Char*] (expat is built with
    [XML_UNICODE_WCHAR_T], so [XML_Char] is [wchar_t]): a character
    string.  Raw input is a list of bytes. *)
Abbreviation wstring := string (only parsing).
Abbreviation bytes := (list byte) (only parsing).

(** [SGS::XMLElementKind] and [SGS::XMLElement].  The header that
    declares them, [XMLReader.h], is not among the sources: the record
    has the three members this translation unit assigns, [kind], [name]
    and [attributes] (indexed by key and assigned through [operator[]]:
    a [std::map] from string to string). *)
Inductive XMLElementKind := kStart | kEnd | kText.

Record XMLElement := mkXMLElement {
  kind : XMLElementKind;
  name : wstring;
  attributes : gmap string string
}.

(** [new SGS::XMLElement] followed by the assignment of [kind]: the string
    and the map are default-constructed, hence empty. *)
Definition new_XMLElement (k : XMLElementKind) : XMLElement :=
  {| kind := k; name := EmptyString; attributes := ∅ |}.

Definition set_name (n : wstring) (e : XMLElement) : XMLElement :=
  {| kind := kind e; name := n; attributes := attributes e |}.

(** [pElement->attributes[key] = value] *)
Definition set_attribute (e : XMLElement) (kv : wstring * wstring) : XMLElement :=
  {| kind := kind e; name := name e;
     attributes := <[kv.1 := kv.2]> (attributes e) |}.

(** The free store holding the elements allocated by the callbacks. *)
Abbreviation addr := positive (only parsing).
Abbreviation heap_t := (gmap positive XMLElement) (only parsing).

(** [new]: a cell that is not allocated at the moment. *)
Definition new_addr (h : heap_t) : addr := fresh (dom h).

(** [delete p]; deleting the null pointer does nothing. *)
Definition delete_ptr (p : option addr) (h : heap_t) : heap_t :=
  match p with
  | None => h
  | Some a => delete a h
  end.

(** [class xml_error : public std::exception]: it has no data member, and
    its constructor [xml_error(const wchar_t* /*what*/) {}] has an empty
    body. *)
Inductive xml_error : Set := mk_xml_error.

Definition xml_error_new (what : wstring) : xml_error := mk_xml_error.

(** [(int)length] for a [size_t] length: two's complement wrap-around to
    32 bits. *)
Definition int_of_size_t (n : nat) : Z :=
  ((Z.of_nat n + 2 ^ 31) mod 2 ^ 32 - 2 ^ 31)%Z.

(** ** The collaborators *)

(** The byte source, [SGS::IStream]: the five member functions [Parse]
    calls.  A read returns the bytes delivered (their number is the
    [size_t] the C++ call returns) and the stream after the read. *)
Module IStream.
Class t (S : Type) := {
  IsEOF : S → bool;
  CanReadOptimized : S → bool;
  GetLength : S → nat;
  Read : S → nat → bytes * S;
  ReadOptimized : S → nat → bytes * S
}.
End IStream.

(** The events expat reports through the three registered handlers.  The
    attribute array [atts] (name, value, name, value, ..., NULL) is the
    list of its pairs; character data [(s, len)] is the span itself. *)
Inductive XMLEvent :=
| StartElement (name : wstring) (atts : list (wstring * wstring))
| EndElement (name : wstring)
| CharacterData (s : wstring).

Inductive XML_Status := XML_STATUS_ERROR | XML_STATUS_OK | XML_STATUS_SUSPENDED.

(** The part of expat the reader uses.  [XML_Parse p s len isFinal] runs
    the handlers synchronously, in order, before it returns: the result
    is the list of handler calls, the parser afterwards and the status.
    Error codes are the values of [enum XML_Error]. *)
Module Expat.
Class t (P : Type) := {
  XML_Parse : P → bytes → Z → bool → list XMLEvent * P * XML_Status;
  XML_GetErrorCode : P → Z;
  XML_ErrorString : Z → wstring
}.
End Expat.

(** ** Results of a member function *)

(** A call returns a value, leaves by an exception, has undefined
    behaviour (a null pointer is dereferenced, [front()] is taken of an
    empty list), or has not finished within the given number of loop
    iterations. *)
Inductive outcome (St A : Type) :=
| Returned (a : A) (st : St)
| Thrown (e : xml_error) (st : St)
| Undefined
| OutOfFuel.
Arguments Returned {St A} a st.
Arguments Thrown {St A} e st.
Arguments Undefined {St A}.
Arguments OutOfFuel {St A}.

Definition bind {St A B} (o : outcome St A) (k : A → St → outcome St B)
  : outcome St B :=
  match o with
  | Returned a st => k a st
  | Thrown e st => Thrown e st
  | Undefined => Undefined
  | OutOfFuel => OutOfFuel
  end.

Notation "'let!' ( x , st ) := o 'in' k" := (bind o (λ x st, k))
  (at level 10, x name, st name, o at level 100, k at level 200,
   only parsing).

(** ** The reader *)

Section Reader.
Context {S P : Type} {stream : IStream.t S} {expat : Expat.t P}.

(** [BUFSIZ] of [<stdio.h>]: the size of the local read buffer. *)
Variable BUFSIZ : nat.

(** The data members of [SGS::XMLReader] (those the constructor
    initialises and the member functions use), and the free store.
    [mpStream] is a pointer to a stream the reader does not own: the
    field holds the state of that stream, [None] for the null pointer.
    [mParser] is [None] when [XML_ParserCreate] returned [NULL].
    [mElements] is a [std::list] of pointers, [mpCurrentElement] a
    pointer, null at first. *)
Record XMLReader := mkXMLReader {
  mpStream : option S;
  mParser : option P;
  mElements : list addr;
  mpCurrentElement : option addr;
  heap : heap_t
}.

(** [XMLReader::XMLReader(IStream* pStream)]; [parser] is the value
    [XML_ParserCreate(NULL)] returned.  The handlers registered here
    are the ones [dispatch] below calls. *)
Definition XMLReader_new (pStream : option S) (parser : option P) (h : heap_t)
  : XMLReader :=
  {| mpStream := pStream; mParser := parser; mElements := [];
     mpCurrentElement := None; heap := h |}.

(** [pThis->mElements.push_back(pElement)] for a freshly allocated
    [pElement]. *)
Definition push_back_new (e : XMLElement) (r : XMLReader) : XMLReader :=
  let p := new_addr (heap r) in
  {| mpStream := mpStream r; mParser := mParser r;
     mElements := mElements r ++ [p];
     mpCurrentElement := mpCurrentElement r;
     heap := <[p := e]> (heap r) |}.

(** [XMLAdapter::OnStartElement] *)
Definition OnStartElement (r : XMLReader) (nm : wstring)
    (atts : list (wstring * wstring)) : XMLReader :=
  let pElement := set_name nm (new_XMLElement kStart) in
  let pElement := fold_left set_attribute atts pElement in
  push_back_new pElement r.

(** [XMLAdapter::OnEndElement] *)
Definition OnEndElement (r : XMLReader) (nm : wstring) : XMLReader :=
  let pElement := set_name nm (new_XMLElement kEnd) in
  push_back_new pElement r.

(** [XMLAdapter::OnCharacterData]: the span goes into [name]. *)
Definition OnCharacterData (r : XMLReader) (s : wstring) : XMLReader :=
  let pElement := set_name s (new_XMLElement kText) in
  push_back_new pElement r.

(** The handler expat calls for an event. *)
Definition dispatch (r : XMLReader) (ev : XMLEvent) : XMLReader :=
  match ev with
  | StartElement nm atts => OnStartElement r nm atts
  | EndElement nm => OnEndElement r nm
  | CharacterData s => OnCharacterData r s
  end.

(** The handler calls of one [XML_Parse], in order. *)
Definition deliver (evs : list XMLEvent) (r : XMLReader) : XMLReader :=
  fold_left dispatch evs r.

(** The reader once the stream has been read ([s] is the stream after
    the read) and [XML_Parse] has run ([p] is the parser after it). *)
Definition with_io (s : S) (p : P) (r : XMLReader) : XMLReader :=
  {| mpStream := Some s; mParser := Some p; mElements := mElements r;
     mpCurrentElement := mpCurrentElement r; heap := heap r |}.

(** The read of one loop iteration. *)
Definition read_chunk (s : S) : bytes * S :=
  if IStream.CanReadOptimized s
  then IStream.ReadOptimized s (IStream.GetLength s)
  else IStream.Read s BUFSIZ.

(** [XMLReader::Parse].  [fuel] bounds the number of iterations of the
    [while] loop; the loop condition is tested before an iteration is
    spent, and [&&] tests the stream only when the list is empty.
    Testing or reading a null stream is undefined behaviour.  So is,
    here, calling [XML_Parse] on a null parser, as with the expat of the
    time of this program, which dereferences it; expat 2.2.1 and later
    return [XML_STATUS_ERROR] for a null parser, and with them the step
    throws after the read. *)
Fixpoint Parse (fuel : nat) (r : XMLReader) : outcome XMLReader unit :=
  match mElements r with
  | _ :: _ => Returned () r
  | [] =>
    match mpStream r with
    | None => Undefined
    | Some s =>
      if IStream.IsEOF s then Returned () r
      else
        match fuel with
        | O => OutOfFuel
        | Datatypes.S fuel' =>
          let '(data, s') := read_chunk s in
          let done := IStream.IsEOF s' in
          match mParser r with
          | None => Undefined
          | Some p =>
            let '(evs, p', status) :=
              Expat.XML_Parse p data (int_of_size_t (length data)) done in
            let r' := deliver evs (with_io s' p' r) in
            match status with
            | XML_STATUS_ERROR =>
              Thrown (xml_error_new
                        (Expat.XML_ErrorString (Expat.XML_GetErrorCode p'))) r'
            | _ => Parse fuel' r'
            end
          end
        end
    end
  end.

(** [XMLReader::IsEOF] *)
Definition IsEOF (fuel : nat) (r : XMLReader) : outcome XMLReader bool :=
  match mParser r, mpStream r with
  | Some _, Some _ =>
    let! (_u, r1) := Parse fuel r in
    Returned (bool_decide (mElements r1 = [])) r1
  | _, _ => Returned true r
  end.

(** [XMLReader::ReadElement]: the reference returned is the address of
    the current element. *)
Definition ReadElement (fuel : nat) (r : XMLReader) : outcome XMLReader addr :=
  let! (_u, r1) := Parse fuel r in
  let h := delete_ptr (mpCurrentElement r1) (heap r1) in
  match mElements r1 with
  | [] => Undefined
  | front :: rest =>
    Returned front
      {| mpStream := mpStream r1; mParser := mParser r1; mElements := rest;
         mpCurrentElement := Some front; heap := h |}
  end.

(** [XMLReader::~XMLReader]: the free store once the current element and
    every pending element have been deleted. *)
Definition XMLReader_delete (r : XMLReader) : heap_t :=
  fold_left (λ h p, delete p h) (mElements r)
            (delete_ptr (mpCurrentElement r) (heap r)).

(** The spec's name for the negation of [IsEOF]. *)
Definition hasMore (fuel : nat) (r : XMLReader) : outcome XMLReader bool :=
  let! (b, r1) := IsEOF fuel r in Returned (negb b) r1.

(** The loop a client runs over the pull interface,
    [while (!reader.IsEOF()) out.push_back(reader.ReadElement());],
    copying each element out of the reference it is handed. *)
Fixpoint drain (fuel : nat) (r : XMLReader)
  : outcome XMLReader (list XMLElement) :=
  match fuel with
  | O => OutOfFuel
  | Datatypes.S fuel' =>
    let! (eof, r1) := IsEOF fuel r in
    if eof : bool then Returned [] r1
    else
      let! (p, r2) := ReadElement fuel r1 in
      match heap r2 !! p with
      | None => Undefined
      | Some e => let! (es, r3) := drain fuel' r2 in Returned (e :: es) r3
      end
  end.

(** *** Notions used to state the properties *)

(** The addresses the reader owns: the current element and the pending
    ones. *)
Definition owned (r : XMLReader) : list addr :=
  option_list (mpCurrentElement r) ++ mElements r.

(** Ownership invariant: the owned addresses are pairwise distinct and
    allocated. *)
Definition wf (r : XMLReader) : Prop :=
  NoDup (owned r) ∧ Forall (λ a, is_Some (heap r !! a)) (owned r).

(** The byte source of [r] has delivered all its input. *)
Definition consumed (r : XMLReader) : Prop :=
  ∃ s, mpStream r = Some s ∧ IStream.IsEOF s = true.

(** Both collaborators are present. *)
Definition live (r : XMLReader) : Prop :=
  is_Some (mParser r) ∧ is_Some (mpStream r).

(** The byte source splits its remaining input into the chunks [cs]:
    the reads of the loop return them one after the other, and the end
    of the stream is reached with the last one. *)
Inductive delivers : S → list bytes → Prop :=
| delivers_eof s : IStream.IsEOF s = true → delivers s []
| delivers_read s s' c cs :
    IStream.IsEOF s = false →
    read_chunk s = (c, s') →
    delivers s' cs →
    delivers s (c :: cs).

(** The calls of [XML_Parse] for a list of chunks as [Parse] makes
    them: the length cast to [int], the last chunk marked final, no
    call after an error.  The result is the list of events reported and
    the last status. *)
Fixpoint feed (p : P) (cs : list bytes) : list XMLEvent * XML_Status :=
  match cs with
  | [] => ([], XML_STATUS_OK)
  | c :: cs' =>
    let '(evs, p', status) :=
      Expat.XML_Parse p c (int_of_size_t (length c))
                      (match cs' with [] => true | _ :: _ => false end) in
    match status with
    | XML_STATUS_ERROR => (evs, XML_STATUS_ERROR)
    | _ => let '(evs', status') := feed p' cs' in (evs ++ evs', status')
    end
  end.

(** The tokenizer accepts [data], fed as one final chunk. *)
Definition well_formed (p0 : P) (data : bytes) : Prop :=
  (feed p0 [data]).2 ≠ XML_STATUS_ERROR.

(** [r1] is [r] after some handler calls: the current element is the
    same, new addresses were appended to the pending list, and no cell
    that was allocated has changed. *)
Definition extends (r r1 : XMLReader) : Prop :=
  mpCurrentElement r1 = mpCurrentElement r ∧
  ∃ new,
    mElements r1 = mElements r ++ new ∧
    NoDup new ∧
    Forall (λ a, heap r !! a = None) new ∧
    Forall (λ a, is_Some (heap r1 !! a)) new ∧
    (∀ a e, heap r !! a = Some e → heap r1 !! a = Some e) ∧
    (∀ a, heap r !! a = None → a ∉ new → heap r1 !! a = None).

(** Errors of the tokenizer are permanent: the parser left by a failing
    [XML_Parse] is [dead], and a dead parser reports no event and fails
    again. *)
Definition error_is_permanent (dead : P → Prop) : Prop :=
  (∀ p d l f evs p',
      Expat.XML_Parse p d l f = (evs, p', XML_STATUS_ERROR) → dead p') ∧
  (∀ p d l f, dead p →
      ∃ p', Expat.XML_Parse p d l f = ([], p', XML_STATUS_ERROR) ∧ dead p').

(** One public operation applied to [r], leaving the reader in [r']
    (by a return or by an exception). *)
Inductive op_step (r r' : XMLReader) : Prop :=
| step_IsEOF fuel b : IsEOF fuel r = Returned b r' → op_step r r'
| step_IsEOF_throw fuel e : IsEOF fuel r = Thrown e r' → op_step r r'
| step_ReadElement fuel a : ReadElement fuel r = Returned a r' → op_step r r'
| step_ReadElement_throw fuel e : ReadElement fuel r = Thrown e r' → op_step r r'.

End Reader.

Arguments XMLReader S P : clear implicits.

(** The element a handler allocates for an event. *)
Definition element_of_event (ev : XMLEvent) : XMLElement :=
  match ev with
  | StartElement nm atts =>
    fold_left set_attribute atts (set_name nm (new_XMLElement kStart))
  | EndElement nm => set_name nm (new_XMLElement kEnd)
  | CharacterData s => set_name s (new_XMLElement kText)
  end.

(** A sequence of events up to the fragmentation of character data:
    adjacent character-data events are joined into one. *)
Definition glue (ev : XMLEvent) (acc : list XMLEvent) : list XMLEvent :=
  match ev, acc with
  | CharacterData s1, CharacterData s2 :: rest =>
    CharacterData (s1 +:+ s2) :: rest
  | _, _ => ev :: acc
  end.

Definition coalesce (evs : list XMLEvent) : list XMLEvent :=
  fold_right glue [] evs.

(** The tokenizer contract on chunking, for the parser [p0]: however a
    well-formed input of less than 2^31 bytes is split into chunks, the
    tokenizer accepts it and reports the same events as for the input in
    one chunk, up to the fragmentation of character data. *)
Definition chunking_independent {P} `{!Expat.t P} (p0 : P) : Prop :=
  ∀ (data : bytes) (cs : list bytes),
    concat cs = data →
    (Z.of_nat (length data) < 2 ^ 31)%Z →
    well_formed p0 data →
    (feed p0 cs).2 ≠ XML_STATUS_ERROR ∧
    coalesce (feed p0 cs).1 = coalesce (feed p0 [data]).1.

(** What the spec calls StartTag, EndTag and Text, as the callbacks lay
    them out in an [XMLElement]. *)
Definition StartTag (nm : wstring) (atts : gmap string string) : XMLElement :=
  {| kind := kStart; name := nm; attributes := atts |}.
Definition EndTag (nm : wstring) : XMLElement :=
  {| kind := kEnd; name := nm; attributes := ∅ |}.
Definition Text (s : wstring) : XMLElement :=
  {| kind := kText; name := s; attributes := ∅ |}.

(** The element an event is to be turned into, in the words of the
    spec of the callback adapter. *)
Definition represents (ev : XMLEvent) (e : XMLElement) : Prop :=
  match ev with
  | StartElement nm atts =>
    kind e = kStart ∧ name e = nm ∧
    ∀ k v, attributes e !! k = Some v ↔ (k, v) ∈ atts
  | EndElement nm => e = EndTag nm
  | CharacterData s => e = Text s
  end.

(** expat rejects a start tag that repeats an attribute name, so the
    names of a reported attribute array are pairwise distinct. *)
Definition distinct_attribute_names (ev : XMLEvent) : Prop :=
  match ev with
  | StartElement _ atts => NoDup (atts.*1)
  | _ => True
  end.

(** Start-tag and end-tag elements of a sequence, text dropped. *)
Definition is_tag (e : XMLElement) : bool :=
  match kind e with kText => false | _ => true end.
Definition tags_only (es : list XMLElement) : list XMLElement :=
  List.filter is_tag es.

(** A sequence of elements up to the fragmentation of text: adjacent
    text elements are joined into one. *)
Definition glue_text (e : XMLElement) (acc : list XMLElement) : list XMLElement :=
  match kind e, acc with
  | kText, e2 :: rest =>
    match kind e2 with
    | kText => set_name (name e +:+ name e2) e :: rest
    | _ => e :: acc
    end
  | _, _ => e :: acc
  end.

Definition coalesce_text (es : list XMLElement) : list XMLElement :=
  fold_right glue_text [] es.

(** ** Deleting with the check the language leaves to the program *)

(** [delete p] is defined for the null pointer and for a cell that is
    allocated; for a cell that is not (it was deleted before), it is
    undefined behaviour: there is no free store afterwards. *)
Definition checked_delete (p : option addr) (h : heap_t) : option heap_t :=
  match p with
  | None => Some h
  | Some a =>
    match h !! a with
    | Some _ => Some (delete a h)
    | None => None
    end
  end.

(** [XMLReader::~XMLReader] with every [delete] checked: the current
    element first, then the pending elements from the head of the list. *)
Definition XMLReader_delete_checked {S P} (r : XMLReader S P) : option heap_t :=
  fold_left (λ oh p, oh ≫= checked_delete (Some p)) (mElements r)
            (checked_delete (mpCurrentElement r) (heap r)).

(** The free store [h] is the free store of [r] without the cells the
    reader owns. *)
Definition rest_of_store {S P} (h : heap_t) (r : XMLReader S P) : Prop :=
  (∀ a, a ∈ owned r → h !! a = None) ∧
  (∀ a, a ∉ owned r → heap r !! a = h !! a).

(** ** A byte source held in memory *)

(** Modelled from the spec: [SGS::IStream] is declared in
    [Platform/IStream.h], which is not part of this translation unit.
    The instance below follows the byte-source contract of the spec:
    [IsEOF] is the end-of-stream status, [Read] delivers at most
    [maxLength] bytes, [ReadOptimized] delivers the whole remaining
    content in one call.  The content is kept as the list of chunks the
    source delivers it in, so that a buffered read can return fewer bytes
    than asked for (a short read); a chunk longer than the buffer is
    delivered in several reads. *)
Module MemStream.

Record t := mk { optimized : bool; pending : list bytes }.

Definition IsEOF (s : t) : bool :=
  match pending s with [] => true | _ :: _ => false end.

Definition CanReadOptimized (s : t) : bool := optimized s.

Definition GetLength (s : t) : nat := length (concat (pending s)).

Definition Read (s : t) (n : nat) : bytes * t :=
  match pending s with
  | [] => ([], s)
  | c :: cs =>
    (take n c,
     mk (optimized s) (if length c <=? n then cs else drop n c :: cs))
  end.

Definition ReadOptimized (s : t) (n : nat) : bytes * t :=
  let content := concat (pending s) in
  (take n content,
   mk (optimized s) (if length content <=? n then [] else [drop n content])).

#[global] Instance stream : IStream.t t :=
  {| IStream.IsEOF := IsEOF;
     IStream.CanReadOptimized := CanReadOptimized;
     IStream.GetLength := GetLength;
     IStream.Read := Read;
     IStream.ReadOptimized := ReadOptimized |}.

End MemStream.

(** ** A small streaming tokenizer *)

(** Modelled from the spec: the tokenizer the reader binds to is the
    expat library, an external collaborator.  [MiniExpat] is an instance
    of the tokenizer contract for a subset of XML: elements, attributes
    and character data in ASCII, without references, comments, CDATA
    sections, processing instructions or declarations (a document that
    uses one of them is rejected).  Like expat it reports events for the
    input as soon as it has it: a start or end tag when its last byte has
    come, character data up to the end of the chunk, a line feed on its
    own, and the events before an error before it fails; after an error
    every call fails again. *)
Module MiniExpat.

Definition XML_ERROR_NONE : Z := 0.
Definition XML_ERROR_SYNTAX : Z := 2.
Definition XML_ERROR_NO_ELEMENTS : Z := 3.
Definition XML_ERROR_INVALID_TOKEN : Z := 4.
Definition XML_ERROR_UNCLOSED_TOKEN : Z := 5.
Definition XML_ERROR_TAG_MISMATCH : Z := 7.
Definition XML_ERROR_DUPLICATE_ATTRIBUTE : Z := 8.
Definition XML_ERROR_JUNK_AFTER_DOC_ELEMENT : Z := 9.
Definition XML_ERROR_FINISHED : Z := 36.
Definition XML_ERROR_INVALID_ARGUMENT : Z := 41.

(** The message table of expat, for the codes above. *)
Definition XML_ErrorString (code : Z) : wstring :=
  if (code =? 2)%Z then "syntax error"
  else if (code =? 3)%Z then "no element found"
  else if (code =? 4)%Z then "not well-formed (invalid token)"
  else if (code =? 5)%Z then "unclosed token"
  else if (code =? 7)%Z then "mismatched tag"
  else if (code =? 8)%Z then "duplicate attribute"
  else if (code =? 9)%Z then "junk after document element"
  else if (code =? 36)%Z then "parsing finished"
  else if (code =? 41)%Z then "invalid argument"
  else EmptyString.

(** Inside markup: the quote that is open, if any, and the bytes since
    the opening angle bracket. *)
Record parser := mkParser {
  markup : option (option byte * bytes);
  open_tags : list wstring;
  root_closed : bool;
  finished : bool;
  errorCode : Z
}.

Definition XML_ParserCreate : parser :=
  {| markup := None; open_tags := []; root_closed := false;
     finished := false; errorCode := XML_ERROR_NONE |}.

Definition fail (code : Z) (p : parser) : parser :=
  {| markup := markup p; open_tags := open_tags p;
     root_closed := root_closed p; finished := finished p;
     errorCode := code |}.

Definition set_markup (m : option (option byte * bytes)) (p : parser) : parser :=
  {| markup := m; open_tags := open_tags p; root_closed := root_closed p;
     finished := finished p; errorCode := errorCode p |}.

Definition failed (p : parser) : bool := negb (errorCode p =? 0)%Z.

(** Character classes, by code. *)
Definition code (b : byte) : N := Byte.to_N b.
Definition has_code (c : N) (b : byte) : bool := (code b =? c)%N.
Definition between (lo hi : N) (b : byte) : bool :=
  ((lo <=? code b) && (code b <=? hi))%N.
Definition is_lt := has_code 60.
Definition is_gt := has_code 62.
Definition is_slash := has_code 47.
Definition is_equals := has_code 61.
Definition is_lf := has_code 10.
Definition is_quote (b : byte) : bool := has_code 34 b || has_code 39 b.
Definition is_space (b : byte) : bool := has_code 32 b || has_code 9 b || has_code 10 b.
Definition is_name_start (b : byte) : bool :=
  between 65 90 b || between 97 122 b || has_code 95 b || has_code 58 b.
Definition is_name_char (b : byte) : bool :=
  is_name_start b || between 48 57 b || has_code 45 b || has_code 46 b.
(** Bytes allowed as they are in character data and attribute values:
    printable ASCII except the angle bracket, the ampersand and the
    closing square bracket. *)
Definition is_plain (b : byte) : bool :=
  between 32 126 b && negb (has_code 60 b) && negb (has_code 38 b) && negb (has_code 93 b).

Fixpoint span (f : byte → bool) (l : bytes) : bytes * bytes :=
  match l with
  | [] => ([], [])
  | b :: l' =>
    if f b then let '(x, y) := span f l' in (b :: x, y) else ([], l)
  end.

Definition is_name (l : bytes) : bool :=
  match l with
  | [] => false
  | b :: _ => is_name_start b && forallb is_name_char l
  end.

Inductive tag :=
| STag (nm : wstring) (atts : list (wstring * wstring)) (empty : bool)
| ETag (nm : wstring).

(** The attributes of a start tag, after its name. *)
Fixpoint parse_atts (fuel : nat) (i : bytes) (acc : list (wstring * wstring))
  : option (list (wstring * wstring) * bool) :=
  match fuel with
  | O => None
  | Datatypes.S fuel' =>
    let '(ws, i1) := span is_space i in
    match i1 with
    | [] => Some (acc, false)
    | b :: rest =>
      if is_slash b then
        match rest with [] => Some (acc, true) | _ :: _ => None end
      else
        match ws with
        | [] => None
        | _ :: _ =>
          let '(nm, i2) := span is_name_char i1 in
          let '(_, i3) := span is_space i2 in
          match i3 with
          | e :: i4 =>
            let '(_, i5) := span is_space i4 in
            match i5 with
            | q :: i6 =>
              let '(val, i7) := span (λ c, negb (Byte.eqb c q)) i6 in
              match i7 with
              | _ :: i8 =>
                if is_name nm && is_equals e && is_quote q && forallb is_plain val
                then parse_atts fuel' i8
                       (acc ++ [(string_of_list_byte nm, string_of_list_byte val)])
                else None
              | [] => None
              end
            | [] => None
            end
          | [] => None
          end
        end
    end
  end.

(** The bytes between the angle brackets of a tag. *)
Definition parse_tag (buf : bytes) : option tag :=
  match buf with
  | [] => None
  | b :: rest =>
    if is_slash b then
      let '(nm, i1) := span is_name_char rest in
      let '(_, i2) := span is_space i1 in
      match i2 with
      | [] => if is_name nm then Some (ETag (string_of_list_byte nm)) else None
      | _ :: _ => None
      end
    else
      let '(nm, i1) := span is_name_char buf in
      if is_name nm then
        match parse_atts (Datatypes.S (length i1)) i1 [] with
        | Some (atts, empty) => Some (STag (string_of_list_byte nm) atts empty)
        | None => None
        end
      else None
  end.

Definition open_element (nm : wstring) (atts : list (wstring * wstring))
    (p : parser) : list XMLEvent * parser :=
  match open_tags p with
  | [] =>
    if root_closed p then ([], fail XML_ERROR_JUNK_AFTER_DOC_ELEMENT p)
    else if bool_decide (NoDup (atts.*1))
    then ([StartElement nm atts],
          {| markup := None; open_tags := [nm]; root_closed := false;
             finished := finished p; errorCode := errorCode p |})
    else ([], fail XML_ERROR_DUPLICATE_ATTRIBUTE p)
  | _ :: _ =>
    if bool_decide (NoDup (atts.*1))
    then ([StartElement nm atts],
          {| markup := None; open_tags := nm :: open_tags p;
             root_closed := root_closed p;
             finished := finished p; errorCode := errorCode p |})
    else ([], fail XML_ERROR_DUPLICATE_ATTRIBUTE p)
  end.

Definition close_element (nm : wstring) (p : parser) : list XMLEvent * parser :=
  match open_tags p with
  | [] =>
    ([], fail (if root_closed p then XML_ERROR_JUNK_AFTER_DOC_ELEMENT
               else XML_ERROR_INVALID_TOKEN) p)
  | top :: below =>
    if String.eqb top nm
    then ([EndElement nm],
          {| markup := None; open_tags := below;
             root_closed := match below with [] => true | _ => root_closed p end;
             finished := finished p; errorCode := errorCode p |})
    else ([], fail XML_ERROR_TAG_MISMATCH p)
  end.

(** The closing angle bracket of a tag has come. *)
Definition end_of_tag (buf : bytes) (p : parser) : list XMLEvent * parser :=
  match parse_tag buf with
  | None => ([], fail XML_ERROR_INVALID_TOKEN p)
  | Some (ETag nm) => close_element nm p
  | Some (STag nm atts empty) =>
    let '(evs, p1) := open_element nm atts p in
    if failed p1 || negb empty then (evs, p1)
    else let '(evs2, p2) := close_element nm p1 in (evs ++ evs2, p2)
  end.

(** Character data is reported when it ends. *)
Definition flush (txt : bytes) : list XMLEvent :=
  match txt with
  | [] => []
  | _ :: _ => [CharacterData (string_of_list_byte txt)]
  end.

(** One input byte; [txt] is the character data read and not yet
    reported. *)
Definition step (p : parser) (txt : bytes) (b : byte)
  : list XMLEvent * parser * bytes :=
  match markup p with
  | None =>
    if is_lt b then (flush txt, set_markup (Some (None, [])) p, [])
    else
      match open_tags p with
      | [] =>
        if is_space b then ([], p, [])
        else ([], fail (if root_closed p then XML_ERROR_JUNK_AFTER_DOC_ELEMENT
                        else XML_ERROR_SYNTAX) p, [])
      | _ :: _ =>
        if is_lf b then (flush txt ++ [CharacterData (string_of_list_byte [b])], p, [])
        else if is_plain b || has_code 9 b then ([], p, txt ++ [b])
        else (flush txt, fail XML_ERROR_INVALID_TOKEN p, [])
      end
  | Some (None, buf) =>
    if is_gt b then let '(evs, p1) := end_of_tag buf p in (evs, p1, [])
    else if is_lt b then ([], fail XML_ERROR_INVALID_TOKEN p, [])
    else if is_quote b then ([], set_markup (Some (Some b, buf ++ [b])) p, [])
    else ([], set_markup (Some (None, buf ++ [b])) p, [])
  | Some (Some q, buf) =>
    if Byte.eqb b q then ([], set_markup (Some (None, buf ++ [b])) p, [])
    else if is_lt b then ([], fail XML_ERROR_INVALID_TOKEN p, [])
    else ([], set_markup (Some (Some q, buf ++ [b])) p, [])
  end.

(** The character data waiting is not empty only inside the content of
    an element. *)
Definition in_content (p : parser) (txt : bytes) : Prop :=
  txt = [] ∨ (markup p = None ∧ open_tags p ≠ []).

(** The bytes of one chunk. *)
Fixpoint scan (p : parser) (txt : bytes) (input : bytes)
  : list XMLEvent * parser :=
  match input with
  | [] => (flush txt, p)
  | b :: rest =>
    let '(evs, p1, txt1) := step p txt b in
    if failed p1 then (evs, p1)
    else let '(evs2, p2) := scan p1 txt1 rest in (evs ++ evs2, p2)
  end.

(** The end of the input has come. *)
Definition end_of_input (p : parser) : parser * XML_Status :=
  match markup p with
  | Some _ => (fail XML_ERROR_UNCLOSED_TOKEN p, XML_STATUS_ERROR)
  | None =>
    match open_tags p with
    | [] =>
      if root_closed p
      then ({| markup := None; open_tags := []; root_closed := true;
               finished := true; errorCode := errorCode p |}, XML_STATUS_OK)
      else (fail XML_ERROR_NO_ELEMENTS p, XML_STATUS_ERROR)
    | _ :: _ => (fail XML_ERROR_NO_ELEMENTS p, XML_STATUS_ERROR)
    end
  end.

Definition XML_Parse (p : parser) (s : bytes) (len : Z) (isFinal : bool)
  : list XMLEvent * parser * XML_Status :=
  if failed p then ([], p, XML_STATUS_ERROR)
  else if finished p then ([], fail XML_ERROR_FINISHED p, XML_STATUS_ERROR)
  else if (len <? 0)%Z then ([], fail XML_ERROR_INVALID_ARGUMENT p, XML_STATUS_ERROR)
  else
    let '(evs, p1) := scan p [] (take (Z.to_nat len) s) in
    if failed p1 then (evs, p1, XML_STATUS_ERROR)
    else if isFinal then let '(p2, status) := end_of_input p1 in (evs, p2, status)
    else (evs, p1, XML_STATUS_OK).

#[global] Instance tokenizer : Expat.t parser :=
  {| Expat.XML_Parse := XML_Parse;
     Expat.XML_GetErrorCode := errorCode;
     Expat.XML_ErrorString := XML_ErrorString |}.

End MiniExpat.

(** The document of the round-trip example,
    [<a x=?1?><b/>hello</a>] with the double quote (byte 0x22) for [?],
    and the events expat reports for it when it comes in one piece. *)
Definition example_document : bytes :=
  list_byte_of_string "<a x=" ++ [x22] ++ list_byte_of_string "1" ++ [x22]
  ++ list_byte_of_string "><b/>hello</a>".

Definition example_events : list XMLEvent :=
  [StartElement "a" [("x", "1")]; StartElement "b" []; EndElement "b";
   CharacterData "hello"; EndElement "a"].


(** Concrete readers for the examples: [BUFSIZ] is 512, the parser is
    the one [MiniExpat.XML_ParserCreate] returns, the free store is empty. *)
Definition example_reader (content : list bytes)
  : XMLReader MemStream.t MiniExpat.parser :=
  XMLReader_new (Some (MemStream.mk false content))
                (Some MiniExpat.XML_ParserCreate) ∅.

(** The same stream when [XML_ParserCreate] has returned [NULL]. *)
Definition example_reader_without_parser (content : list bytes)
  : XMLReader MemStream.t MiniExpat.parser :=
  XMLReader_new (Some (MemStream.mk false content)) None ∅.

(** The reader a call leaves behind. *)
Definition state_after {St A} (o : outcome St A) (default : St) : St :=
  match o with
  | Returned _ st | Thrown _ st => st
  | _ => default
  end.

(** A document whose close tag does not match, [<a><b></a>]. *)
Definition mismatched_document : bytes := list_byte_of_string "<a><b></a>".

(** * Properties *)

(** ** The free store and the attribute loop *)

Lemma new_addr_fresh (h : gmap positive XMLElement) : h !! new_addr h = None.
Proof. apply not_elem_of_dom. unfold new_addr. apply (is_fresh (dom h)). Qed.

Lemma set_attribute_fold_kind atts e :
  kind (fold_left set_attribute atts e) = kind e ∧
  name (fold_left set_attribute atts e) = name e.
Proof.
  revert e. induction atts as [|kv atts IH]; intros e; [done|].
  simpl. destruct (IH (set_attribute e kv)) as [-> ->]. done.
Qed.

Lemma set_attribute_fold_lookup atts e k v :
  NoDup (atts.*1) →
  attributes (fold_left set_attribute atts e) !! k = Some v ↔
  (k, v) ∈ atts ∨ ((k ∉ atts.*1) ∧ attributes e !! k = Some v).
Proof.
  revert e. induction atts as [|[k' v'] atts IH]; intros e Hnd.
  - simpl. split; [intros ?; right; split; [apply not_elem_of_nil|done]|].
    intros [Hin|[_ ?]]; [by apply elem_of_nil in Hin|done].
  - simpl in *. apply NoDup_cons in Hnd as [Hk' Hnd].
    rewrite (IH _ Hnd). simpl. rewrite elem_of_cons, not_elem_of_cons.
    destruct (decide (k' = k)) as [->|Hne].
    + rewrite lookup_insert_eq. split.
      * intros [Hin|[_ [= <-]]]; [|by left; left].
        exfalso. apply Hk'. apply list_elem_of_fmap. by exists (k, v).
      * intros [[[= <-]|Hin]|[[? _] _]]; [by right| |done].
        exfalso. apply Hk'. apply list_elem_of_fmap. by exists (k, v).
    + rewrite lookup_insert_ne by done. split.
      * intros [Hin|[Hk Hl]]; [by left; right|by right].
      * intros [[[= ? ?]|Hin]|[[_ Hk] Hl]]; [congruence|by left|by right].
Qed.

Lemma Forall2_heap_agree (h h' : gmap positive XMLElement) q es :
  Forall2 (λ a e, h !! a = Some e) q es →
  (∀ a, a ∈ q → h' !! a = h !! a) →
  Forall2 (λ a e, h' !! a = Some e) q es.
Proof.
  induction 1 as [|a e q es Ha _ IH]; intros Hagree; constructor.
  - rewrite Hagree; [done|by left].
  - apply IH. intros b Hb. apply Hagree. by right.
Qed.

Lemma represents_element_of_event ev :
  distinct_attribute_names ev → represents ev (element_of_event ev).
Proof.
  destruct ev as [nm atts|nm|s]; simpl; [|done..].
  intros Hnd. destruct (set_attribute_fold_kind atts
    (set_name nm (new_XMLElement kStart))) as [-> ->].
  split; [done|split; [done|]]. intros k v.
  rewrite set_attribute_fold_lookup by done. simpl.
  rewrite lookup_empty. split; [|by left]. by intros [?|[_ ?]].
Qed.

Section ReaderFacts.
Context {S P : Type} {stream : IStream.t S} {expat : Expat.t P}.
Variable BUFSIZ : nat.
Implicit Types r : XMLReader S P.

(** *** The callbacks *)

Lemma dispatch_push r ev :
  dispatch r ev = push_back_new (element_of_event ev) r.
Proof. by destruct ev. Qed.

(** What a run of handler calls does to the reader: it appends one new
    address per event, holding the element of that event, and touches
    nothing that was allocated. *)
Lemma deliver_spec evs r :
  ∃ new,
    mElements (deliver evs r) = mElements r ++ new ∧
    Forall2 (λ ev a, heap (deliver evs r) !! a = Some (element_of_event ev))
            evs new ∧
    NoDup new ∧
    Forall (λ a, heap r !! a = None) new ∧
    (∀ a e, heap r !! a = Some e → heap (deliver evs r) !! a = Some e) ∧
    (∀ a, heap r !! a = None → a ∉ new → heap (deliver evs r) !! a = None) ∧
    mpCurrentElement (deliver evs r) = mpCurrentElement r ∧
    mpStream (deliver evs r) = mpStream r ∧
    mParser (deliver evs r) = mParser r.
Proof.
  revert r. induction evs as [|ev evs IH]; intros r.
  - exists []. simpl. rewrite app_nil_r.
    repeat split; auto using NoDup_nil_2.
  - unfold deliver in *. simpl. rewrite dispatch_push.
    destruct (IH (push_back_new (element_of_event ev) r))
      as (new & Hq & Hf2 & Hnd & Hfresh & Hmono & Hnone & Hc & Hs & Hp).
    set (r1 := push_back_new (element_of_event ev) r) in *.
    set (a := new_addr (heap r)).
    assert (Ha : heap r !! a = None) by apply new_addr_fresh.
    assert (Hr1 : ∀ b, heap r1 !! b = if decide (a = b)
              then Some (element_of_event ev) else heap r !! b).
    { intros b. unfold r1, push_back_new. simpl. fold a.
      by rewrite lookup_insert. }
    assert (Hnotin : a ∉ new).
    { intros Hin. rewrite Forall_forall in Hfresh.
      specialize (Hfresh a Hin). rewrite Hr1 in Hfresh.
      by rewrite decide_True in Hfresh. }
    exists (a :: new). repeat split.
    + rewrite Hq. unfold r1, push_back_new. simpl. fold a.
      by rewrite <- app_assoc.
    + constructor; [|done]. apply Hmono. rewrite Hr1.
      by rewrite decide_True.
    + by apply NoDup_cons.
    + constructor; [done|]. eapply Forall_impl; [exact Hfresh|].
      intros b Hb. simpl in Hb. rewrite Hr1 in Hb. by case_decide.
    + intros b e Hb. apply Hmono. rewrite Hr1. case_decide; [congruence|done].
    + intros b Hb Hnb. apply not_elem_of_cons in Hnb as [Hne Hnb].
      apply Hnone; [|done]. rewrite Hr1. by rewrite decide_False.
    + by rewrite Hc.
    + by rewrite Hs.
    + by rewrite Hp.
Qed.

(** *** Ownership *)

Lemma extends_refl r : extends r r.
Proof.
  split; [done|]. exists []. rewrite app_nil_r.
  repeat split; auto using NoDup_nil_2.
Qed.

Lemma extends_trans r r1 r2 : extends r r1 → extends r1 r2 → extends r r2.
Proof.
  intros [Hc1 (n1 & Hq1 & Hnd1 & Hf1 & Ha1 & Hm1 & Hn1)]
         [Hc2 (n2 & Hq2 & Hnd2 & Hf2 & Ha2 & Hm2 & Hn2)].
  split; [congruence|]. exists (n1 ++ n2).
  rewrite Forall_forall in Hf1, Hf2, Ha1, Ha2.
  repeat split.
  - by rewrite Hq2, Hq1, <- app_assoc.
  - apply NoDup_app. split; [done|]. split; [|done].
    intros a Hin1 Hin2. destruct (Ha1 a Hin1) as [e He].
    specialize (Hf2 a Hin2). congruence.
  - apply Forall_app. split; apply Forall_forall; [done|].
    intros a Hin. specialize (Hf2 a Hin).
    destruct (heap r !! a) as [e|] eqn:He; [|done].
    apply Hm1 in He. congruence.
  - apply Forall_app. split; apply Forall_forall; [|done].
    intros a Hin. destruct (Ha1 a Hin) as [e He]. exists e. by apply Hm2.
  - auto.
  - intros a Ha Hnin. apply not_elem_of_app in Hnin as [? ?]. auto.
Qed.

Lemma with_io_extends s p r : extends r (with_io s p r).
Proof.
  split; [done|]. exists []. simpl. rewrite app_nil_r.
  repeat split; auto using NoDup_nil_2.
Qed.

Lemma deliver_extends evs r : extends r (deliver evs r).
Proof.
  destruct (deliver_spec evs r)
    as (new & Hq & Hf2 & Hnd & Hfresh & Hmono & Hnone & Hc & _).
  split; [done|]. exists new.
  split; [done|]. split; [done|]. split; [done|]. split; [|by split].
  generalize dependent (heap (deliver evs r)). intros h Hf2 _ _.
  clear -Hf2. induction Hf2; constructor; eauto.
Qed.

Lemma wf_extends r r1 : wf r → extends r r1 → wf r1.
Proof.
  intros [Hnd Hal] [Hc (new & Hq & Hnd' & Hf & Ha & Hm & _)].
  unfold wf, owned in *. rewrite Hc, Hq, app_assoc.
  rewrite Forall_forall in Hal, Hf, Ha. split.
  - apply NoDup_app. split; [done|]. split; [|done].
    intros a Hin1 Hin2. destruct (Hal a Hin1) as [e He].
    specialize (Hf a Hin2). congruence.
  - apply Forall_app. split; apply Forall_forall; [|done].
    intros a Hin. destruct (Hal a Hin) as [e He]. exists e. auto.
Qed.

Lemma wf_new (pStream : option S) (parser : option P) h :
  wf (XMLReader_new pStream parser h).
Proof. split; [apply NoDup_nil_2|constructor]. Qed.

(** *** The parse step *)

Lemma Parse_eq fuel r :
  Parse BUFSIZ fuel r =
  match mElements r with
  | _ :: _ => Returned () r
  | [] =>
    match mpStream r with
    | None => Undefined
    | Some s =>
      if IStream.IsEOF s then Returned () r
      else
        match fuel with
        | O => OutOfFuel
        | Datatypes.S fuel' =>
          let '(data, s') := read_chunk BUFSIZ s in
          match mParser r with
          | None => Undefined
          | Some p =>
            let '(evs, p', status) :=
              Expat.XML_Parse p data (int_of_size_t (length data))
                              (IStream.IsEOF s') in
            let r' := deliver evs (with_io s' p' r) in
            match status with
            | XML_STATUS_ERROR =>
              Thrown (xml_error_new
                        (Expat.XML_ErrorString (Expat.XML_GetErrorCode p'))) r'
            | _ => Parse BUFSIZ fuel' r'
            end
          end
        end
    end
  end.
Proof. destruct fuel; reflexivity. Qed.

Lemma Parse_nonempty fuel r :
  mElements r ≠ [] → Parse BUFSIZ fuel r = Returned () r.
Proof. intros Hne. rewrite Parse_eq. by destruct (mElements r). Qed.

Lemma Parse_at_eof fuel r s :
  mElements r = [] → mpStream r = Some s → IStream.IsEOF s = true →
  Parse BUFSIZ fuel r = Returned () r.
Proof. intros Hq Hs He. rewrite Parse_eq. by rewrite Hq, Hs, He. Qed.

(** One iteration of the loop. *)
Lemma Parse_iteration fuel r s s' p p' c evs status :
  mElements r = [] → mpStream r = Some s → mParser r = Some p →
  IStream.IsEOF s = false →
  read_chunk BUFSIZ s = (c, s') →
  Expat.XML_Parse p c (int_of_size_t (length c)) (IStream.IsEOF s')
    = (evs, p', status) →
  Parse BUFSIZ (Datatypes.S fuel) r =
  match status with
  | XML_STATUS_ERROR =>
    Thrown (xml_error_new (Expat.XML_ErrorString (Expat.XML_GetErrorCode p')))
           (deliver evs (with_io s' p' r))
  | _ => Parse BUFSIZ fuel (deliver evs (with_io s' p' r))
  end.
Proof.
  intros Hq Hs Hp He Hr Hx. rewrite Parse_eq.
  by rewrite Hq, Hs, He, Hr, Hp, Hx.
Qed.

(** Whatever way [Parse] ends, it has only appended to the pending
    list; when it returns, the list is non-empty or the stream is at its
    end. *)
Lemma Parse_inv fuel r :
  match Parse BUFSIZ fuel r with
  | Returned _ r1 =>
    extends r r1 ∧ (mElements r1 ≠ [] ∨ consumed r1) ∧
    (is_Some (mParser r) → is_Some (mParser r1)) ∧
    (is_Some (mpStream r) → is_Some (mpStream r1))
  | Thrown _ r1 => extends r r1 ∧ live r1
  | _ => True
  end.
Proof.
  revert r. induction fuel as [|fuel IH]; intros r; rewrite Parse_eq.
  - destruct (mElements r) eqn:Hq.
    + destruct (mpStream r) as [s|] eqn:Hs; [|done].
      destruct (IStream.IsEOF s) eqn:He; [|done].
      split; [apply extends_refl|]. split; [right; by exists s|]. by rewrite Hs.
    + split; [apply extends_refl|]. split; [left; by rewrite Hq|]. done.
  - destruct (mElements r) eqn:Hq.
    + destruct (mpStream r) as [s|] eqn:Hs; [|done].
      destruct (IStream.IsEOF s) eqn:He.
      { split; [apply extends_refl|]. split; [right; by exists s|]. by rewrite Hs. }
      destruct (read_chunk BUFSIZ s) as [c s'].
      destruct (mParser r) as [p|] eqn:Hp; [|done].
      destruct (Expat.XML_Parse _ _ _ _) as [[evs p'] status].
      set (r' := deliver evs (with_io s' p' r)).
      assert (Hext : extends r r').
      { eapply extends_trans; [apply with_io_extends|apply deliver_extends]. }
      assert (Hlive : live r').
      { destruct (deliver_spec evs (with_io s' p' r))
          as (? & _ & _ & _ & _ & _ & _ & _ & Hs' & Hp').
        split; [fold r' in Hp'; rewrite Hp'|fold r' in Hs'; rewrite Hs']; by eexists. }
      destruct status; [done| |]; specialize (IH r');
        destruct (Parse BUFSIZ fuel r') as [u r1|e r1| |]; try done.
      * destruct IH as (? & ? & Hp1 & Hs1). destruct Hlive.
        split; [by eapply extends_trans|]. split; [done|]. split; auto.
      * destruct IH as [? ?]. split; [by eapply extends_trans|done].
      * destruct IH as (? & ? & Hp1 & Hs1). destruct Hlive.
        split; [by eapply extends_trans|]. split; [done|]. split; auto.
      * destruct IH as [? ?]. split; [by eapply extends_trans|done].
    + split; [apply extends_refl|]. split; [left; by rewrite Hq|]. done.
Qed.

Lemma with_io_id r s p :
  mpStream r = Some s → mParser r = Some p → with_io s p r = r.
Proof. destruct r; simpl; intros -> ->; done. Qed.

Lemma deliver_fields evs r :
  mpStream (deliver evs r) = mpStream r ∧
  mParser (deliver evs r) = mParser r ∧
  mpCurrentElement (deliver evs r) = mpCurrentElement r.
Proof.
  destruct (deliver_spec evs r) as (? & _ & _ & _ & _ & _ & _ & ? & ? & ?).
  done.
Qed.

Lemma deliver_nonempty ev evs r : mElements (deliver (ev :: evs) r) ≠ [].
Proof.
  destruct (deliver_spec (ev :: evs) r) as (new & Hq & Hf2 & _).
  rewrite Hq. inversion Hf2; subst. by destruct (mElements r).
Qed.

(** With both collaborators present and a stream that ends, the parse
    step ends too: it returns or throws. *)
Lemma Parse_total s cs :
  delivers BUFSIZ s cs →
  ∀ r fuel,
    mpStream r = Some s → is_Some (mParser r) → length cs ≤ fuel →
    (∃ r1, Parse BUFSIZ fuel r = Returned () r1) ∨
    (∃ e r1, Parse BUFSIZ fuel r = Thrown e r1).
Proof.
  induction 1 as [s He|s s' c cs He Hr Hd IH]; intros r fuel Hs [p Hp] Hfuel.
  - left. exists r. destruct (mElements r) eqn:Hq.
    + by eapply Parse_at_eof.
    + apply Parse_nonempty. by rewrite Hq.
  - destruct (mElements r) eqn:Hq.
    2:{ left. exists r. apply Parse_nonempty. by rewrite Hq. }
    destruct fuel as [|fuel]; [simpl in Hfuel; lia|].
    destruct (Expat.XML_Parse p c (int_of_size_t (length c)) (IStream.IsEOF s'))
      as [[evs p'] status] eqn:Hx.
    rewrite (Parse_iteration fuel r s s' p p' c evs status) by done.
    destruct (deliver_fields evs (with_io s' p' r)) as (Hs' & Hp' & _).
    simpl in Hfuel.
    destruct status; [right; eauto| |];
      apply IH; rewrite ?Hs', ?Hp'; simpl; eauto with lia.
Qed.

(** *** The callback adapter *)

(** C2.  The handler calls of one feed append exactly one element per
    event to the pending list, in the order of the events: the list after
    the calls is the list before followed by one new address per event,
    and the cell at the address of an event holds the element the claim
    describes for it (start tag: the name and exactly the attribute pairs
    given; end tag: the name; character data: the span).  The elements
    that were pending before are untouched. *)
Theorem adapter_one_element_per_event evs r :
  Forall distinct_attribute_names evs →
  ∃ new,
    mElements (deliver evs r) = mElements r ++ new ∧
    Forall2 (λ ev a, ∃ e, heap (deliver evs r) !! a = Some e ∧ represents ev e)
            evs new ∧
    NoDup new ∧
    ∀ a e, heap r !! a = Some e → heap (deliver evs r) !! a = Some e.
Proof.
  intros Hd.
  destruct (deliver_spec evs r) as (new & Hq & Hf2 & Hnd & _ & Hmono & _).
  exists new. split; [done|]. split; [|done].
  generalize dependent (heap (deliver evs r)). intros h Hf2 _.
  clear Hq Hnd. induction Hf2 as [|ev a evs new Ha Hf2 IH]; constructor.
  - exists (element_of_event ev). split; [done|].
    apply represents_element_of_event. by inversion Hd.
  - apply IH. by inversion Hd.
Qed.

(** C7, as the code has it.  Every element the handlers allocate comes
    from one event and has the kind of that event.  An end-tag element
    has its name and no attribute.  A text element has no attribute, and
    its character content is what its [name] member holds. *)
Theorem element_members_by_kind evs r a e :
  heap r !! a = None →
  heap (deliver evs r) !! a = Some e →
  ∃ ev, ev ∈ evs ∧ e = element_of_event ev ∧
    match ev with
    | StartElement nm _ => kind e = kStart ∧ name e = nm
    | EndElement nm => kind e = kEnd ∧ name e = nm ∧ attributes e = ∅
    | CharacterData s => kind e = kText ∧ name e = s ∧ attributes e = ∅
    end.
Proof.
  intros Hfree Halloc.
  destruct (deliver_spec evs r) as (new & _ & Hf2 & _ & _ & _ & Hnone & _).
  assert (Hin : a ∈ new).
  { destruct (decide (a ∈ new)) as [|Hn]; [done|].
    rewrite (Hnone a Hfree Hn) in Halloc. done. }
  generalize dependent (heap (deliver evs r)). intros h Ha Hf2 _.
  clear Hfree. induction Hf2 as [|ev b evs new Hb Hf2 IH].
  - by apply elem_of_nil in Hin.
  - apply elem_of_cons in Hin as [->|Hin].
    + exists ev. split; [left|]. rewrite Hb in Ha. injection Ha as <-.
      split; [done|]. destruct ev as [nm atts|nm|s]; simpl; try done.
      by destruct (set_attribute_fold_kind atts
                     (set_name nm (new_XMLElement kStart))) as [-> ->].
    + destruct (IH Hin) as (ev' & ? & ?). exists ev'. split; [by right|done].
Qed.

(** *** The pull interface *)

(** C6, as the code has it.  Without a parser or without a stream,
    [IsEOF] returns true, so [hasMore] returns false; nothing is read,
    nothing is raised, and the reader is unchanged. *)
Theorem IsEOF_without_parser_or_stream fuel r :
  mParser r = None ∨ mpStream r = None →
  IsEOF BUFSIZ fuel r = Returned true r ∧
  hasMore BUFSIZ fuel r = Returned false r.
Proof.
  intros Hnull. assert (Heof : IsEOF BUFSIZ fuel r = Returned true r).
  { unfold IsEOF. destruct Hnull as [-> | ->]; [done|].
    by destruct (mParser r). }
  split; [done|]. unfold hasMore. by rewrite Heof.
Qed.

(** C1, as the code has it.  With a parser and a stream, whenever
    [hasMore] returns, the state is the one the parse step left; the
    result is false exactly when the stream has been consumed and the
    pending list is empty, and true exactly when an element is pending.
    And [hasMore] does end when the stream ends after finitely many
    reads: it returns, or leaves by the exception of the parse step. *)
Theorem hasMore_spec fuel r :
  live r →
  (∀ b r1,
      hasMore BUFSIZ fuel r = Returned b r1 →
      Parse BUFSIZ fuel r = Returned () r1 ∧
      (b = false ↔ consumed r1 ∧ mElements r1 = []) ∧
      (b = true ↔ mElements r1 ≠ [])) ∧
  (∀ s cs,
      mpStream r = Some s → delivers BUFSIZ s cs → length cs ≤ fuel →
      (∃ b r1, hasMore BUFSIZ fuel r = Returned b r1) ∨
      (∃ e r1, hasMore BUFSIZ fuel r = Thrown e r1)).
Proof.
  intros [[p Hp] [s Hs]].
  assert (Hunfold : hasMore BUFSIZ fuel r =
    let! (_u, r1) := Parse BUFSIZ fuel r in
    Returned (negb (bool_decide (mElements r1 = []))) r1).
  { unfold hasMore, IsEOF. rewrite Hp, Hs. by destruct (Parse BUFSIZ fuel r). }
  rewrite Hunfold. split.
  - intros b r1 Hret. pose proof (Parse_inv fuel r) as Hinv.
    destruct (Parse BUFSIZ fuel r) as [[] r1'|e r1'| |]; try done.
    simpl in Hret. injection Hret as <- <-.
    destruct Hinv as (_ & Hex & _). split; [done|].
    case_bool_decide as Hq; simpl.
    + split; [|by split]. split; [|done]. intros _. split; [|done].
      by destruct Hex.
    + split; [|by split]. split; [done|]. by intros [_ ?].
  - intros s' cs Hs' Hd Hfuel.
    assert (Hp' : is_Some (mParser r)) by eauto.
    destruct (Parse_total s' cs Hd r fuel Hs' Hp' Hfuel)
      as [[r1 ->]|(e & r1 & ->)]; simpl; eauto.
Qed.

(** What [ReadElement] does once the parse step has left an element
    pending. *)
Lemma ReadElement_front fuel r r1 front rest :
  wf r →
  Parse BUFSIZ fuel r = Returned () r1 →
  mElements r1 = front :: rest →
  ∃ r2 e,
    ReadElement BUFSIZ fuel r = Returned front r2 ∧
    mElements r2 = rest ∧
    mpCurrentElement r2 = Some front ∧
    heap r1 !! front = Some e ∧ heap r2 !! front = Some e ∧
    heap r2 = delete_ptr (mpCurrentElement r) (heap r1) ∧
    (∀ old, mpCurrentElement r = Some old → heap r2 !! old = None) ∧
    (∀ a, a ∈ rest → heap r2 !! a = heap r1 !! a) ∧
    mpStream r2 = mpStream r1 ∧ mParser r2 = mParser r1 ∧
    wf r2.
Proof.
  intros Hwf Hr Hq. pose proof (Parse_inv fuel r) as Hinv.
  rewrite Hr in Hinv. destruct Hinv as (Hext & _).
  pose proof (wf_extends _ _ Hwf Hext) as [Hnd Hal].
  destruct Hext as [Hc _]. unfold owned in *. rewrite Hq in Hnd, Hal.
  assert (Hfront : is_Some (heap r1 !! front)).
  { rewrite Forall_forall in Hal. apply Hal. set_solver. }
  destruct Hfront as [e He].
  assert (Hkeep : ∀ a, a ∈ front :: rest →
            delete_ptr (mpCurrentElement r1) (heap r1) !! a = heap r1 !! a).
  { intros a Ha. destruct (mpCurrentElement r1) as [old|]; [|done]. simpl.
    apply lookup_delete_ne. intros ->. simpl in Hnd.
    apply NoDup_cons in Hnd as [Hnd _]. done. }
  eexists _, e. unfold ReadElement. rewrite Hr. simpl. rewrite Hq.
  split; [done|]. simpl. split; [done|]. split; [done|]. split; [done|].
  split; [rewrite Hkeep; [done|by left]|]. split; [by rewrite Hc|].
  split; [|split; [|split; [done|split; [done|]]]].
  - intros old Hold. rewrite Hc, Hold. simpl. apply lookup_delete_eq.
  - intros a Ha. apply Hkeep. by right.
  - split; unfold owned; simpl.
    + apply NoDup_app in Hnd as (_ & _ & Hnd). done.
    + apply Forall_app in Hal as [_ Hal]. rewrite Forall_forall in Hal |- *.
      intros a Ha. rewrite Hkeep; auto.
Qed.

(** The ownership invariant holds for a new reader ([wf_new]) and is
    kept by every public operation, however it ends: it holds for every
    reader a program can have. *)
Lemma wf_op_step r r' : wf r → op_step BUFSIZ r r' → wf r'.
Proof.
  intros Hwf Hstep.
  assert (HP : ∀ fuel, match Parse BUFSIZ fuel r with
                       | Returned _ r1 | Thrown _ r1 => wf r1
                       | _ => True
                       end).
  { intros fuel. pose proof (Parse_inv fuel r) as Hinv.
    destruct (Parse BUFSIZ fuel r); try done;
      eapply wf_extends; try exact Hwf; apply Hinv. }
  destruct Hstep as [fuel b Hop|fuel e Hop|fuel a Hop|fuel e Hop];
    specialize (HP fuel).
  - unfold IsEOF in Hop.
    destruct (mParser r), (mpStream r); try (by injection Hop as _ <-).
    destruct (Parse BUFSIZ fuel r); try done. by injection Hop as _ <-.
  - unfold IsEOF in Hop.
    destruct (mParser r), (mpStream r); try done.
    destruct (Parse BUFSIZ fuel r); try done. by injection Hop as _ <-.
  - destruct (Parse BUFSIZ fuel r) as [[] r1|e1 r1| |] eqn:HParse;
      try (unfold ReadElement in Hop; rewrite HParse in Hop; done).
    destruct (mElements r1) as [|front rest] eqn:Hq;
      [unfold ReadElement in Hop; rewrite HParse in Hop; simpl in Hop;
       by rewrite Hq in Hop|].
    destruct (ReadElement_front fuel r r1 front rest Hwf HParse Hq)
      as (r2 & e & Hread & _ & _ & _ & _ & _ & _ & _ & _ & _ & Hwf2).
    rewrite Hread in Hop. by injection Hop as _ <-.
  - unfold ReadElement in Hop.
    destruct (Parse BUFSIZ fuel r) as [[] r1|e1 r1| |]; try done.
    + simpl in Hop. by destruct (mElements r1).
    + by injection Hop as _ <-.
Qed.

(** C3.  When the parse step leaves an element pending, [ReadElement]
    returns the head of the pending list and removes it from the list.
    The list is first in, first out: the parse step has only appended to
    it, so the head is the element that was queued first.  The element
    returned becomes the current element and its cell stays allocated
    for the caller; the cell of the element returned by the call before
    is freed; the other pending elements are untouched. *)
Theorem ReadElement_spec fuel r r1 front rest :
  wf r →
  Parse BUFSIZ fuel r = Returned () r1 →
  mElements r1 = front :: rest →
  (∃ new, mElements r1 = mElements r ++ new) ∧
  ∃ r2 e,
    ReadElement BUFSIZ fuel r = Returned front r2 ∧
    mElements r2 = rest ∧
    mpCurrentElement r2 = Some front ∧
    heap r1 !! front = Some e ∧ heap r2 !! front = Some e ∧
    (∀ old, mpCurrentElement r = Some old → heap r2 !! old = None) ∧
    (∀ a, a ∈ rest → heap r2 !! a = heap r1 !! a) ∧
    wf r2.
Proof.
  intros Hwf Hr Hq. split.
  - pose proof (Parse_inv fuel r) as Hinv. rewrite Hr in Hinv.
    destruct Hinv as ((_ & new & Hnew & _) & _). by exists new.
  - destruct (ReadElement_front fuel r r1 front rest Hwf Hr Hq)
      as (r2 & e & ? & ? & ? & ? & ? & _ & ? & ? & _ & _ & ?).
    by exists r2, e.
Qed.

(** C10.  When an element is already pending, [ReadElement] makes no
    read and no call of the tokenizer (the parse step returns at once,
    stream and parser are as they were); it removes the head, so the list
    is one shorter, and the elements that remain are the same, in the same
    order, with the same contents. *)
Theorem ReadElement_pending_frame fuel r front rest :
  wf r →
  mElements r = front :: rest →
  ∃ r2,
    ReadElement BUFSIZ fuel r = Returned front r2 ∧
    Parse BUFSIZ fuel r = Returned () r ∧
    mpStream r2 = mpStream r ∧ mParser r2 = mParser r ∧
    mElements r2 = rest ∧
    Datatypes.S (length (mElements r2)) = length (mElements r) ∧
    ∀ a, a ∈ mElements r2 → heap r2 !! a = heap r !! a.
Proof.
  intros Hwf Hq.
  assert (Hr : Parse BUFSIZ fuel r = Returned () r).
  { apply Parse_nonempty. by rewrite Hq. }
  destruct (ReadElement_front fuel r r front rest Hwf Hr Hq)
    as (r2 & e & Hread & Hq2 & _ & _ & _ & _ & _ & Hrest & Hs & Hp & _).
  exists r2. rewrite Hq2, Hq. repeat split; auto.
Qed.

(** [~XMLReader] frees every cell the reader owns and no other. *)
Lemma XMLReader_delete_frees r :
  (∀ a, a ∈ owned r → XMLReader_delete r !! a = None) ∧
  (∀ a, a ∉ owned r → XMLReader_delete r !! a = heap r !! a).
Proof.
  unfold XMLReader_delete, owned.
  assert (Hfold : ∀ l (h : gmap positive XMLElement) a,
    fold_left (λ h p, delete p h) l h !! a =
    if decide (a ∈ l) then None else h !! a).
  { induction l as [|b l IH]; intros h a; simpl; [done|].
    rewrite IH. destruct (decide (a ∈ l)) as [Hin|Hnin].
    - destruct (decide (a ∈ b :: l)) as [_|Hn]; [done|].
      exfalso. apply Hn. by right.
    - destruct (decide (a ∈ b :: l)) as [[->|?]%elem_of_cons|Hn].
      + apply lookup_delete_eq.
      + done.
      + apply lookup_delete_ne. intros ->. apply Hn. by left. }
  split; intros a Ha; rewrite Hfold.
  - destruct (decide (a ∈ mElements r)); [done|].
    apply elem_of_app in Ha as [Ha|Ha]; [|done].
    destruct (mpCurrentElement r) as [c|]; simpl in *.
    + apply list_elem_of_singleton in Ha as ->. apply lookup_delete_eq.
    + by apply elem_of_nil in Ha.
  - apply not_elem_of_app in Ha as [Hc Hq]. rewrite decide_False by done.
    destruct (mpCurrentElement r) as [c|]; simpl in *; [|done].
    apply lookup_delete_ne. intros ->. apply Hc. by left.
Qed.

(** *** After a parse error *)

(** The parser a throwing [Parse] leaves in the reader is the one a
    failing [XML_Parse] returned. *)
Lemma Parse_thrown_parser fuel r e r1 :
  Parse BUFSIZ fuel r = Thrown e r1 →
  ∃ p0 d l f evs p,
    Expat.XML_Parse p0 d l f = (evs, p, XML_STATUS_ERROR) ∧ mParser r1 = Some p.
Proof.
  revert r. induction fuel as [|fuel IH]; intros r; rewrite Parse_eq;
    destruct (mElements r); try done;
    destruct (mpStream r) as [s|]; try done;
    destruct (IStream.IsEOF s); try done.
  destruct (read_chunk BUFSIZ s) as [c s'].
  destruct (mParser r) as [p|]; [|done].
  destruct (Expat.XML_Parse _ _ _ _) as [[evs p'] status] eqn:Hx.
  destruct status; [|apply IH..].
  cbv zeta. intros [= _ <-].
  exists p, c, (int_of_size_t (length c)), (IStream.IsEOF s'), evs, p'.
  split; [done|]. destruct (deliver_fields evs (with_io s' p' r)) as (_ & -> & _).
  done.
Qed.

(** With a dead parser the parse step changes neither the pending list
    nor the free store: it returns at once, or it makes one read, gets
    no event and throws. *)
Lemma Parse_dead dead fuel r p :
  error_is_permanent dead → mParser r = Some p → dead p →
  match Parse BUFSIZ fuel r with
  | Returned _ r1 => r1 = r
  | Thrown _ r1 => mElements r = [] ∧ ∃ s' p', r1 = with_io s' p' r ∧ dead p'
  | _ => True
  end.
Proof.
  intros [_ Hdead] Hp Hd. rewrite Parse_eq.
  destruct (mElements r); [|done].
  destruct (mpStream r) as [s|]; [|done].
  destruct (IStream.IsEOF s); [done|].
  destruct fuel as [|fuel]; [done|].
  destruct (read_chunk BUFSIZ s) as [c s']. rewrite Hp.
  destruct (Hdead p c (int_of_size_t (length c)) (IStream.IsEOF s') Hd)
    as (p' & -> & Hd').
  split; [done|]. by exists s', p'.
Qed.

Lemma IsEOF_dead dead fuel r p :
  error_is_permanent dead → mParser r = Some p → dead p →
  match IsEOF BUFSIZ fuel r with
  | Returned _ r1 => r1 = r
  | Thrown _ r1 => ∃ s' p', r1 = with_io s' p' r ∧ dead p'
  | _ => True
  end.
Proof.
  intros Hlaw Hp Hd. pose proof (Parse_dead dead fuel r p Hlaw Hp Hd) as HP.
  unfold IsEOF. rewrite Hp. destruct (mpStream r); [|done].
  destruct (Parse BUFSIZ fuel r) as [u r1|e1 r1| |]; simpl; try done.
  by destruct HP.
Qed.

Lemma ReadElement_dead dead fuel r p :
  error_is_permanent dead → wf r → mParser r = Some p → dead p →
  match ReadElement BUFSIZ fuel r with
  | Returned a r1 =>
    mElements r = a :: mElements r1 ∧ wf r1 ∧ mParser r1 = mParser r ∧
    ∀ b, b ∈ mElements r1 → heap r1 !! b = heap r !! b
  | Thrown _ r1 => ∃ s' p', r1 = with_io s' p' r ∧ dead p'
  | _ => True
  end.
Proof.
  intros Hlaw Hwf Hp Hd.
  pose proof (Parse_dead dead fuel r p Hlaw Hp Hd) as HP.
  destruct (Parse BUFSIZ fuel r) as [u r1|e1 r1| |] eqn:HParse;
    [|unfold ReadElement; rewrite HParse; simpl; try done; by destruct HP..].
  subst r1. destruct u. destruct (mElements r) as [|front rest] eqn:Hq.
  { unfold ReadElement. rewrite HParse. simpl. by rewrite Hq. }
  destruct (ReadElement_front fuel r r front rest Hwf HParse Hq)
    as (r2 & e & -> & Hq2 & _ & _ & _ & _ & _ & Hrest & _ & Hp2 & Hwf2).
  rewrite Hq2. done.
Qed.

Lemma op_step_dead dead r r' :
  error_is_permanent dead → wf r →
  (∃ p, mParser r = Some p ∧ dead p) →
  op_step BUFSIZ r r' →
  wf r' ∧ (∃ p, mParser r' = Some p ∧ dead p) ∧
  (∃ k, mElements r' = drop k (mElements r)) ∧
  ∀ a, a ∈ mElements r' → heap r' !! a = heap r !! a.
Proof.
  intros Hlaw Hwf (p & Hp & Hd) Hstep.
  assert (Hio : ∀ s' p', dead p' → r' = with_io s' p' r →
    wf r' ∧ (∃ p, mParser r' = Some p ∧ dead p) ∧
    (∃ k, mElements r' = drop k (mElements r)) ∧
    ∀ a, a ∈ mElements r' → heap r' !! a = heap r !! a).
  { intros s' p' Hd' ->.
    split; [eapply wf_extends; [done|apply with_io_extends]|].
    split; [by exists p'|]. split; [by exists 0|done]. }
  assert (Hid : r' = r →
    wf r' ∧ (∃ p, mParser r' = Some p ∧ dead p) ∧
    (∃ k, mElements r' = drop k (mElements r)) ∧
    ∀ a, a ∈ mElements r' → heap r' !! a = heap r !! a).
  { intros ->. split; [done|]. split; [by exists p|]. split; [by exists 0|done]. }
  pose proof (λ fuel, IsEOF_dead dead fuel r p Hlaw Hp Hd) as HE.
  pose proof (λ fuel, ReadElement_dead dead fuel r p Hlaw Hwf Hp Hd) as HR.
  destruct Hstep as [fuel b Hop|fuel e Hop|fuel a Hop|fuel e Hop];
    [specialize (HE fuel); rewrite Hop in HE
    |specialize (HE fuel); rewrite Hop in HE
    |specialize (HR fuel); rewrite Hop in HR
    |specialize (HR fuel); rewrite Hop in HR].
  - auto.
  - destruct HE as (s' & p' & ? & ?). eauto.
  - destruct HR as (Hq & Hwf' & Hp' & Hheap).
    split; [done|]. split; [exists p; by rewrite Hp'|].
    split; [exists 1; by rewrite Hq|done].
  - destruct HR as (s' & p' & ? & ?). eauto.
Qed.

(** C9, as the code has it.  Once the parse step has thrown, and given
    that errors of the tokenizer are permanent, whatever operations
    follow: the parser in the reader stays the failed one (it is never
    reset), nothing is appended to the pending list, which only loses
    elements from its head as they are read, and the elements still
    pending keep their contents.  The elements delivered after the error
    are therefore those the failing feed had queued before it failed.  A
    later parse step that has to call the tokenizer throws again. *)
Theorem no_new_element_after_parse_error dead fuel r e r1 r2 :
  error_is_permanent dead → wf r →
  Parse BUFSIZ fuel r = Thrown e r1 →
  rtc (op_step BUFSIZ) r1 r2 →
  (∃ k, mElements r2 = drop k (mElements r1)) ∧
  (∀ a, a ∈ mElements r2 → heap r2 !! a = heap r1 !! a) ∧
  (∃ p, mParser r2 = Some p ∧ dead p) ∧
  (∀ fuel' s, mElements r2 = [] → mpStream r2 = Some s →
     IStream.IsEOF s = false →
     ∃ e' r3, Parse BUFSIZ (Datatypes.S fuel') r2 = Thrown e' r3 ∧
              mElements r3 = []).
Proof.
  intros Hlaw Hwf HParse Hrtc.
  assert (Hwf1 : wf r1).
  { pose proof (Parse_inv fuel r) as Hinv. rewrite HParse in Hinv.
    eapply wf_extends; [done|apply Hinv]. }
  assert (Hdead1 : ∃ p, mParser r1 = Some p ∧ dead p).
  { destruct (Parse_thrown_parser fuel r e r1 HParse)
      as (p0 & d & l & f & evs & p & Hx & Hp).
    exists p. split; [done|]. destruct Hlaw as [Hl _]. eauto. }
  clear HParse Hwf.
  assert (Hinv : wf r2 ∧ (∃ p, mParser r2 = Some p ∧ dead p) ∧
    (∃ k, mElements r2 = drop k (mElements r1)) ∧
    ∀ a, a ∈ mElements r2 → heap r2 !! a = heap r1 !! a).
  { revert r2 Hrtc. apply rtc_ind_r.
    - split; [done|]. split; [done|]. split; [by exists 0|done].
    - intros r2 r3 Hrtc Hstep IH. destruct IH as (Hwf2 & Hd2 & [k Hk] & Hh2).
      destruct (op_step_dead dead r2 r3 Hlaw Hwf2 Hd2 Hstep)
        as (Hwf3 & Hd3 & [k' Hk'] & Hh3).
      split; [done|]. split; [done|]. split.
      + exists (k + k'). by rewrite Hk', Hk, drop_drop.
      + intros a Ha. rewrite Hh3 by done. apply Hh2.
        rewrite Hk' in Ha. by eapply subseteq_drop. }
  destruct Hinv as (Hwf2 & (p & Hp & Hd) & Hk & Hh).
  split; [done|]. split; [done|]. split; [by exists p|].
  intros fuel' s Hq Hs He.
  pose proof (Parse_dead dead (Datatypes.S fuel') r2 p Hlaw Hp Hd) as HP.
  rewrite Parse_eq in HP |- *. rewrite Hq, Hs, He in HP |- *.
  destruct (read_chunk BUFSIZ s) as [c s']. rewrite Hp in HP |- *.
  destruct Hlaw as [_ Hlaw].
  destruct (Hlaw p c (int_of_size_t (length c)) (IStream.IsEOF s') Hd)
    as (p' & Hx & _).
  rewrite Hx. eexists _, _. split; [done|]. done.
Qed.

(** *** Draining the reader *)

Lemma delivers_flag s cs :
  delivers BUFSIZ s cs →
  IStream.IsEOF s = match cs with [] => true | _ :: _ => false end.
Proof. by destruct 1. Qed.

(** The parse step on an empty pending list, for a stream that delivers
    [cs] and a tokenizer that accepts these chunks: it feeds chunks until
    one yields events or the stream ends, and leaves the events of that
    chunk pending, in order. *)
Lemma Parse_delivers s cs :
  delivers BUFSIZ s cs →
  ∀ p r evs status fuel,
    feed p cs = (evs, status) → status ≠ XML_STATUS_ERROR →
    mpStream r = Some s → mParser r = Some p → mElements r = [] →
    length cs ≤ fuel →
    ∃ s1 p1 cs1 evs0 evs1,
      Parse BUFSIZ fuel r = Returned () (deliver evs0 (with_io s1 p1 r)) ∧
      delivers BUFSIZ s1 cs1 ∧ feed p1 cs1 = (evs1, status) ∧
      evs = evs0 ++ evs1 ∧ length cs1 ≤ length cs ∧
      (evs0 = [] → cs1 = []).
Proof.
  induction 1 as [s He|s s' c cs He Hr Hd IH];
    intros p r evs status fuel Hfeed Hok Hs Hp Hq Hfuel.
  - simpl in Hfeed. injection Hfeed as <- <-.
    exists s, p, [], [], []. rewrite (Parse_at_eof fuel r s) by done.
    unfold deliver. simpl. rewrite with_io_id by done.
    repeat split; auto. by constructor.
  - destruct fuel as [|fuel]; [simpl in Hfuel; lia|]. simpl in Hfeed, Hfuel.
    rewrite <- (delivers_flag s' cs Hd) in Hfeed.
    destruct (Expat.XML_Parse p c (int_of_size_t (length c)) (IStream.IsEOF s'))
      as [[evs_c p'] status_c] eqn:Hx.
    rewrite (Parse_iteration fuel r s s' p p' c evs_c status_c) by done.
    destruct (feed p' cs) as [evs' status'] eqn:Hfeed'.
    assert (Hcont : evs = evs_c ++ evs' → status = status' →
      ∃ s1 p1 cs1 evs0 evs1,
        Parse BUFSIZ fuel (deliver evs_c (with_io s' p' r))
          = Returned () (deliver evs0 (with_io s1 p1 r)) ∧
        delivers BUFSIZ s1 cs1 ∧ feed p1 cs1 = (evs1, status) ∧
        evs = evs0 ++ evs1 ∧ length cs1 ≤ Datatypes.S (length cs) ∧
        (evs0 = [] → cs1 = [])).
    { intros -> ->. destruct evs_c as [|ev evs_c].
      - destruct (IH p' (with_io s' p' r) evs' status' fuel)
          as (s1 & p1 & cs1 & evs0 & evs1 & HP & ? & ? & ? & ? & ?);
          try done; [lia|].
        exists s1, p1, cs1, evs0, evs1. unfold deliver at 1. simpl.
        rewrite HP. repeat split; auto with lia.
      - exists s', p', cs, (ev :: evs_c), evs'.
        rewrite Parse_nonempty by apply deliver_nonempty.
        repeat split; auto with lia. done. }
    destruct status_c; [by injection Hfeed as <- <-| |];
      injection Hfeed as <- <-; apply Hcont; done.
Qed.

Lemma drain_eq fuel r :
  drain BUFSIZ (Datatypes.S fuel) r =
  let! (eof, r1) := IsEOF BUFSIZ (Datatypes.S fuel) r in
  if eof : bool then Returned [] r1
  else
    let! (p, r2) := ReadElement BUFSIZ (Datatypes.S fuel) r1 in
    match heap r2 !! p with
    | None => Undefined
    | Some e =>
      let! (es, r3) := drain BUFSIZ fuel r2 in Returned (e :: es) r3
    end.
Proof. reflexivity. Qed.

Lemma IsEOF_pending fuel r :
  live r → mElements r ≠ [] → IsEOF BUFSIZ fuel r = Returned false r.
Proof.
  intros [[p Hp] [s Hs]] Hq. unfold IsEOF.
  rewrite Hp, Hs, Parse_nonempty by done. simpl.
  by rewrite bool_decide_false.
Qed.

Lemma deliver_queued evs s p r :
  mElements r = [] →
  Forall2 (λ a e, heap (deliver evs (with_io s p r)) !! a = Some e)
          (mElements (deliver evs (with_io s p r)))
          (element_of_event <$> evs).
Proof.
  intros Hq.
  destruct (deliver_spec evs (with_io s p r)) as (new & -> & Hf2 & _).
  simpl. rewrite Hq. simpl. apply Forall2_fmap_r, Forall2_flip.
  eapply Forall2_impl; [exact Hf2|]. done.
Qed.

(** The client loop delivers, in order, the elements that are pending
    and then one element for each event the tokenizer reports for the
    rest of the stream; it stops with nothing pending and the stream
    consumed. *)
Lemma drain_delivers n :
  ∀ r s p cs evs status es,
    length (mElements r) + length evs + length cs ≤ n →
    wf r → mpStream r = Some s → mParser r = Some p →
    delivers BUFSIZ s cs → feed p cs = (evs, status) →
    status ≠ XML_STATUS_ERROR →
    Forall2 (λ a e, heap r !! a = Some e) (mElements r) es →
    ∃ r', drain BUFSIZ (Datatypes.S n) r
            = Returned (es ++ (element_of_event <$> evs)) r' ∧
          mElements r' = [] ∧ consumed r' ∧ live r' ∧ wf r'.
Proof.
  induction n as [n IH] using lt_wf_ind.
  assert (Hpending : ∀ r s p cs evs status es,
    mElements r ≠ [] →
    length (mElements r) + length evs + length cs ≤ n →
    wf r → mpStream r = Some s → mParser r = Some p →
    delivers BUFSIZ s cs → feed p cs = (evs, status) →
    status ≠ XML_STATUS_ERROR →
    Forall2 (λ a e, heap r !! a = Some e) (mElements r) es →
    ∃ r', drain BUFSIZ (Datatypes.S n) r
            = Returned (es ++ (element_of_event <$> evs)) r' ∧
          mElements r' = [] ∧ consumed r' ∧ live r' ∧ wf r').
  { intros r s p cs evs status es Hne Hm Hwf Hs Hp Hd Hfeed Hok Hes.
    destruct (mElements r) as [|a q] eqn:Hq; [done|].
    inversion Hes as [|a' e q' es' Ha Hes' Heq1 Heq2]; subst. clear Hes.
    destruct n as [|n]; [simpl in Hm; lia|].
    rewrite drain_eq, IsEOF_pending; [|split; eauto|by rewrite Hq]. cbn [bind].
    assert (HParse : Parse BUFSIZ (Datatypes.S (Datatypes.S n)) r = Returned () r).
    { apply Parse_nonempty. by rewrite Hq. }
    destruct (ReadElement_front _ r r a q Hwf HParse Hq)
      as (r2 & e0 & -> & Hq2 & _ & He0 & He2 & _ & _ & Hrest & Hs2 & Hp2 & Hwf2).
    cbn [bind]. rewrite He2. assert (e0 = e) as -> by congruence.
    destruct (IH n (Nat.lt_succ_diag_r n) r2 s p cs evs status es')
      as (r' & -> & ?); try done.
    - rewrite Hq2. simpl in Hm. lia.
    - congruence.
    - congruence.
    - rewrite Hq2. by eapply Forall2_heap_agree.
    - exists r'. done. }
  intros r s p cs evs status es Hm Hwf Hs Hp Hd Hfeed Hok Hes.
  destruct (mElements r) as [|a q] eqn:Hq.
  2:{ eapply Hpending; eauto; by rewrite Hq. }
  inversion Hes; subst. clear Hes. simpl in Hm.
  destruct (Parse_delivers s cs Hd p r evs status (Datatypes.S n))
    as (s1 & p1 & cs1 & evs0 & evs1 & HParse & Hd1 & Hfeed1 & -> & Hlen & Hlast);
    try done; [lia|].
  set (r1 := deliver evs0 (with_io s1 p1 r)) in *.
  assert (Hwf1 : wf r1).
  { eapply wf_extends; [exact Hwf|].
    eapply extends_trans; [apply with_io_extends|apply deliver_extends]. }
  destruct (deliver_fields evs0 (with_io s1 p1 r)) as (Hs1 & Hp1 & _).
  fold r1 in Hs1, Hp1. simpl in Hs1, Hp1.
  assert (HE : IsEOF BUFSIZ (Datatypes.S n) r =
               Returned (bool_decide (mElements r1 = [])) r1).
  { unfold IsEOF. by rewrite Hp, Hs, HParse. }
  destruct evs0 as [|ev evs0].
  - rewrite (Hlast eq_refl) in *. simpl in Hfeed1. injection Hfeed1 as <- <-.
    exists r1. rewrite drain_eq, HE. unfold r1, deliver. simpl. rewrite Hq.
    rewrite bool_decide_true by done. split; [done|]. split; [done|].
    split; [exists s1; split; [done|by rewrite (delivers_flag s1 [])]|].
    split; [split; eauto|done].
  - assert (Hne : mElements r1 ≠ []) by apply deliver_nonempty.
    assert (Hsame : drain BUFSIZ (Datatypes.S n) r = drain BUFSIZ (Datatypes.S n) r1).
    { rewrite !drain_eq, HE, IsEOF_pending; [|split; eauto|done].
      by rewrite bool_decide_false. }
    rewrite Hsame, fmap_app.
    eapply (Hpending r1 s1 p1 cs1 evs1 status); try done.
    + rewrite length_app in Hm.
      pose proof (Forall2_length _ _ _ (deliver_queued (ev :: evs0) s1 p1 r Hq)) as Hl.
      fold r1 in Hl. rewrite length_fmap in Hl. lia.
    + by apply deliver_queued.
Qed.


Lemma kind_element_of_event ev :
  kind (element_of_event ev) =
  match ev with
  | StartElement _ _ => kStart
  | EndElement _ => kEnd
  | CharacterData _ => kText
  end.
Proof.
  destruct ev as [nm atts|nm|s]; try done. simpl.
  by destruct (set_attribute_fold_kind atts
                 (set_name nm (new_XMLElement kStart))) as [-> _].
Qed.

Lemma glue_text_elements ev evs :
  glue_text (element_of_event ev) (element_of_event <$> evs)
  = element_of_event <$> glue ev evs.
Proof.
  unfold glue_text. rewrite kind_element_of_event.
  destruct ev as [nm atts|nm|s]; try done.
  destruct evs as [|ev2 evs]; [done|].
  rewrite fmap_cons, kind_element_of_event. by destruct ev2.
Qed.

Lemma coalesce_text_elements evs :
  coalesce_text (element_of_event <$> evs) = element_of_event <$> coalesce evs.
Proof.
  induction evs as [|ev evs IH]; [done|].
  rewrite fmap_cons. unfold coalesce_text, coalesce in *. cbn [fold_right].
  by rewrite IH, glue_text_elements.
Qed.

Lemma tags_only_glue_text e es :
  tags_only (glue_text e es) = tags_only (e :: es).
Proof.
  unfold glue_text, tags_only. destruct (kind e) eqn:He; try done.
  destruct es as [|e2 es]; [done|]. destruct (kind e2) eqn:He2; try done.
  cbn [List.filter]. unfold is_tag. simpl. by rewrite He, He2.
Qed.

Lemma tags_only_coalesce_text es : tags_only (coalesce_text es) = tags_only es.
Proof.
  induction es as [|e es IH]; [done|].
  unfold coalesce_text in *. cbn [fold_right]. rewrite tags_only_glue_text.
  unfold tags_only in *. cbn [List.filter]. by rewrite IH.
Qed.

(** A reader that starts on stream [s] with a fresh parser [p], drained
    by the client loop: it delivers one element per event of the feed of
    the chunks of [s], in order. *)
Lemma drain_new s p cs h fuel :
  delivers BUFSIZ s cs →
  (feed p cs).2 ≠ XML_STATUS_ERROR →
  length (feed p cs).1 + length cs < fuel →
  ∃ r', drain BUFSIZ fuel (XMLReader_new (Some s) (Some p) h)
          = Returned (element_of_event <$> (feed p cs).1) r' ∧
        mElements r' = [] ∧ consumed r' ∧ live r'.
Proof.
  intros Hd Hok Hfuel. destruct fuel as [|n]; [lia|].
  destruct (feed p cs) as [evs status] eqn:Hfeed. simpl in Hok, Hfuel.
  destruct (drain_delivers n (XMLReader_new (Some s) (Some p) h)
              s p cs evs status [])
    as (r' & Hdrain & ? & ? & ? & _);
    [simpl; lia|apply wf_new|done|done|done|done|done|constructor|].
  exists r'. done.
Qed.

(** Two sequences of events that agree up to the fragmentation of
    character data give element sequences that agree up to the
    fragmentation of text, and on tags. *)
Lemma elements_up_to_fragmentation evs1 evs2 :
  coalesce evs1 = coalesce evs2 →
  coalesce_text (element_of_event <$> evs1)
    = coalesce_text (element_of_event <$> evs2) ∧
  tags_only (element_of_event <$> evs1) = tags_only (element_of_event <$> evs2).
Proof.
  intros Hco.
  assert (Hel : coalesce_text (element_of_event <$> evs1)
              = coalesce_text (element_of_event <$> evs2)).
  { rewrite !coalesce_text_elements. congruence. }
  split; [done|].
  rewrite <- (tags_only_coalesce_text (element_of_event <$> evs1)).
  rewrite <- (tags_only_coalesce_text (element_of_event <$> evs2)).
  by rewrite Hel.
Qed.

(** Two readers over two streams, drained with the same fuel. *)
Lemma drain_both (p0 : P) (s1 s2 : S) cs1 cs2 h1 h2 :
  delivers BUFSIZ s1 cs1 → delivers BUFSIZ s2 cs2 →
  (feed p0 cs1).2 ≠ XML_STATUS_ERROR → (feed p0 cs2).2 ≠ XML_STATUS_ERROR →
  ∃ fuel r1 r2,
    drain BUFSIZ fuel (XMLReader_new (Some s1) (Some p0) h1)
      = Returned (element_of_event <$> (feed p0 cs1).1) r1 ∧
    drain BUFSIZ fuel (XMLReader_new (Some s2) (Some p0) h2)
      = Returned (element_of_event <$> (feed p0 cs2).1) r2.
Proof.
  intros Hd1 Hd2 Hok1 Hok2.
  set (fuel := Datatypes.S (length (feed p0 cs1).1 + length cs1
                            + (length (feed p0 cs2).1 + length cs2))).
  destruct (drain_new s1 p0 cs1 h1 fuel Hd1 Hok1) as (r1 & Hr1 & _);
    [unfold fuel; lia|].
  destruct (drain_new s2 p0 cs2 h2 fuel Hd2 Hok2) as (r2 & Hr2 & _);
    [unfold fuel; lia|].
  by exists fuel, r1, r2.
Qed.

(** X15.  For a tokenizer that honours the contract on chunking, a
    well-formed input of less than 2^31 bytes (so that every chunk length
    fits the [int] that [XML_Parse] takes) and two streams that split it
    into chunks in two ways: the client loop ends normally on both, and
    the two element sequences are the same once adjacent text elements
    are joined; in particular they have the same start-tag and end-tag
    elements, in the same order, and can differ only in how the text
    between them is cut into text elements. *)
Theorem chunking_preserves_tags (p0 : P) (s1 s2 : S) cs1 cs2 data h1 h2 :
  chunking_independent p0 →
  delivers BUFSIZ s1 cs1 → delivers BUFSIZ s2 cs2 →
  concat cs1 = data → concat cs2 = data →
  (Z.of_nat (length data) < 2 ^ 31)%Z →
  well_formed p0 data →
  ∃ fuel es1 es2 r1 r2,
    drain BUFSIZ fuel (XMLReader_new (Some s1) (Some p0) h1) = Returned es1 r1 ∧
    drain BUFSIZ fuel (XMLReader_new (Some s2) (Some p0) h2) = Returned es2 r2 ∧
    coalesce_text es1 = coalesce_text es2 ∧
    tags_only es1 = tags_only es2.
Proof.
  intros Hlaw Hd1 Hd2 Hc1 Hc2 Hlen Hwf.
  destruct (Hlaw data cs1 Hc1 Hlen Hwf) as [Hok1 Ht1].
  destruct (Hlaw data cs2 Hc2 Hlen Hwf) as [Hok2 Ht2].
  destruct (drain_both p0 s1 s2 cs1 cs2 h1 h2 Hd1 Hd2 Hok1 Hok2)
    as (fuel & r1 & r2 & Hr1 & Hr2).
  exists fuel, (element_of_event <$> (feed p0 cs1).1),
         (element_of_event <$> (feed p0 cs2).1), r1, r2.
  split; [done|]. split; [done|].
  apply elements_up_to_fragmentation. congruence.
Qed.


End ReaderFacts.

(** ** How the operations compose *)

Section ReaderProtocol.
Context {S P : Type} {stream : IStream.t S} {expat : Expat.t P}.
Variable BUFSIZ : nat.
Implicit Types r : XMLReader S P.

(** Once the parse step has returned, running it again returns at once:
    an element is pending, or the stream is at its end. *)
Lemma Parse_returned_again fuel fuel' r r1 :
  Parse BUFSIZ fuel r = Returned () r1 →
  Parse BUFSIZ fuel' r1 = Returned () r1.
Proof.
  intros HP. pose proof (Parse_inv BUFSIZ fuel r) as Hinv. rewrite HP in Hinv.
  destruct Hinv as (_ & [Hne|(s & Hs & He)] & _).
  - by apply Parse_nonempty.
  - destruct (mElements r1) eqn:Hq; [by eapply Parse_at_eof|].
    apply Parse_nonempty. by rewrite Hq.
Qed.

Lemma Parse_keeps_live fuel r :
  live r →
  match Parse BUFSIZ fuel r with
  | Returned _ r1 | Thrown _ r1 => live r1
  | Undefined => False
  | OutOfFuel => True
  end.
Proof.
  revert r. induction fuel as [|fuel IH]; intros r [[p Hp] [s Hs]];
    rewrite Parse_eq, Hs; (destruct (mElements r); [|by split; eauto]);
    (destruct (IStream.IsEOF s); [by split; eauto|]); [done|].
  destruct (read_chunk BUFSIZ s) as [c s']. rewrite Hp.
  destruct (Expat.XML_Parse _ _ _ _) as [[evs p'] status].
  assert (Hlive : live (deliver evs (with_io s' p' r))).
  { destruct (deliver_fields evs (with_io s' p' r)) as (Hs' & Hp' & _).
    split; [rewrite Hp'|rewrite Hs']; by eexists. }
  destruct status; [done|by apply IH..].
Qed.

Lemma IsEOF_live fuel r :
  live r →
  IsEOF BUFSIZ fuel r =
  let! (_u, r1) := Parse BUFSIZ fuel r in
  Returned (bool_decide (mElements r1 = [])) r1.
Proof. intros [[p Hp] [s Hs]]. unfold IsEOF. by rewrite Hp, Hs. Qed.

(** What [IsEOF] does when it returns. *)
Lemma IsEOF_returned fuel r b r1 :
  IsEOF BUFSIZ fuel r = Returned b r1 →
  (¬ live r ∧ r1 = r ∧ b = true) ∨
  (live r ∧ live r1 ∧ Parse BUFSIZ fuel r = Returned () r1 ∧
   b = bool_decide (mElements r1 = [])).
Proof.
  intros HE. destruct (mParser r) as [p|] eqn:Hp.
  2:{ left. unfold IsEOF in HE. rewrite Hp in HE. injection HE as <- <-.
      split; [|done]. intros [[? Hp'] _]. congruence. }
  destruct (mpStream r) as [s|] eqn:Hs.
  2:{ left. unfold IsEOF in HE. rewrite Hp, Hs in HE. injection HE as <- <-.
      split; [|done]. intros [_ [? Hs']]. congruence. }
  right. assert (Hlive : live r) by (split; eauto).
  rewrite (IsEOF_live fuel r Hlive) in HE.
  pose proof (Parse_keeps_live fuel r Hlive) as Hl.
  destruct (Parse BUFSIZ fuel r) as [[] r1'|e r1'| |]; try done.
  simpl in HE. injection HE as <- <-. done.
Qed.

(** The possible steps of the reader: the parse step appends to the
    pending list, and then [ReadElement], when it returns, frees the
    current element and takes the head of the list for it. *)
Lemma op_step_cases r r' :
  op_step BUFSIZ r r' →
  ∃ r1, extends r r1 ∧
    (r' = r1 ∨
     ∃ front rest, mElements r1 = front :: rest ∧
       r' = {| mpStream := mpStream r1; mParser := mParser r1;
               mElements := rest; mpCurrentElement := Some front;
               heap := delete_ptr (mpCurrentElement r1) (heap r1) |}).
Proof.
  intros Hstep.
  assert (HP : ∀ fuel, match Parse BUFSIZ fuel r with
                       | Returned _ r1 | Thrown _ r1 => extends r r1
                       | _ => True
                       end).
  { intros fuel. pose proof (Parse_inv BUFSIZ fuel r) as Hinv.
    destruct (Parse BUFSIZ fuel r); try done; apply Hinv. }
  destruct Hstep as [fuel b Hop|fuel e Hop|fuel a Hop|fuel e Hop];
    specialize (HP fuel).
  - unfold IsEOF in Hop.
    destruct (mParser r), (mpStream r);
      try (injection Hop as _ <-; exists r; split; [apply extends_refl|by left]).
    destruct (Parse BUFSIZ fuel r) as [u r1|e r1| |]; try done.
    injection Hop as _ <-. exists r1. split; [done|by left].
  - unfold IsEOF in Hop. destruct (mParser r), (mpStream r); try done.
    destruct (Parse BUFSIZ fuel r) as [u r1|e1 r1| |]; try done.
    injection Hop as _ <-. exists r1. split; [done|by left].
  - unfold ReadElement in Hop.
    destruct (Parse BUFSIZ fuel r) as [u r1|e1 r1| |]; try done.
    simpl in Hop. destruct (mElements r1) as [|front rest] eqn:Hq; [done|].
    injection Hop as _ <-. exists r1. split; [done|]. right. by exists front, rest.
  - unfold ReadElement in Hop.
    destruct (Parse BUFSIZ fuel r) as [u r1|e1 r1| |]; try done.
    + simpl in Hop. by destruct (mElements r1).
    + injection Hop as _ <-. exists r1. split; [done|by left].
Qed.

(** A reader with nothing pending and no stream, or with a stream at
    its end, does not move any more: [IsEOF] leaves it as it is, and
    [ReadElement] has undefined behaviour (it tests the null stream, or
    takes the head of the empty list). *)
Lemma at_end_IsEOF fuel r :
  mElements r = [] → mpStream r = None ∨ consumed r →
  IsEOF BUFSIZ fuel r = Returned true r.
Proof.
  intros Hq Hend. unfold IsEOF.
  destruct (mParser r) as [p|] eqn:Hp; [|done].
  destruct (mpStream r) as [s|] eqn:Hs; [|done].
  destruct Hend as [?|(s0 & Hs0 & He0)]; [done|].
  rewrite (Parse_at_eof BUFSIZ fuel r s0) by congruence. simpl.
  by rewrite bool_decide_true.
Qed.

Lemma at_end_ReadElement fuel r :
  mElements r = [] → mpStream r = None ∨ consumed r →
  ReadElement BUFSIZ fuel r = Undefined.
Proof.
  intros Hq Hend. unfold ReadElement. rewrite Parse_eq, Hq.
  destruct Hend as [->|(s & -> & ->)]; [done|]. simpl. by rewrite Hq.
Qed.

Lemma at_end_no_step r r' :
  mElements r = [] → mpStream r = None ∨ consumed r →
  op_step BUFSIZ r r' → r' = r.
Proof.
  intros Hq Hend Hstep.
  pose proof (λ fuel, at_end_IsEOF fuel r Hq Hend) as HE.
  pose proof (λ fuel, at_end_ReadElement fuel r Hq Hend) as HR.
  destruct Hstep as [fuel b Hop|fuel e Hop|fuel a Hop|fuel e Hop].
  - rewrite HE in Hop. by injection Hop as _ <-.
  - by rewrite HE in Hop.
  - by rewrite HR in Hop.
  - by rewrite HR in Hop.
Qed.

Lemma at_end_forever r r' :
  mElements r = [] → mpStream r = None ∨ consumed r →
  rtc (op_step BUFSIZ) r r' → r' = r.
Proof.
  intros Hq Hend Hrtc. revert r' Hrtc. apply rtc_ind_r; [done|].
  intros r1 r2 _ Hstep ->. by eapply at_end_no_step.
Qed.

(** X3.  [IsEOF] can be asked again and again: once it has returned, every
    further call returns the same answer and leaves the reader, the
    stream and the parser as the first call left them. *)
Theorem IsEOF_idempotent fuel fuel' r b r1 :
  IsEOF BUFSIZ fuel r = Returned b r1 →
  IsEOF BUFSIZ fuel' r1 = Returned b r1.
Proof.
  intros HE.
  destruct (IsEOF_returned fuel r b r1 HE)
    as [(Hn & -> & ->)|(_ & Hl1 & HP & ->)].
  - unfold IsEOF. destruct (mParser r) as [p|] eqn:Hp; [|done].
    destruct (mpStream r) as [s|] eqn:Hs; [|done].
    destruct Hn. split; eauto.
  - rewrite (IsEOF_live fuel' r1 Hl1).
    by rewrite (Parse_returned_again fuel fuel' r r1 HP).
Qed.

(** X4.  Testing before reading changes nothing: on a reader with parser and
    stream, [ReadElement] after an [IsEOF] that returned does what
    [ReadElement] alone would have done.  When the answer was false it
    returns the head of the pending list, without a read and without a
    call of the tokenizer. *)
Theorem ReadElement_after_IsEOF fuel fuel' r b r1 :
  live r →
  IsEOF BUFSIZ fuel r = Returned b r1 →
  ReadElement BUFSIZ fuel' r1 = ReadElement BUFSIZ fuel r ∧
  (b = false →
   ∃ front r2, ReadElement BUFSIZ fuel' r1 = Returned front r2 ∧
     mElements r1 = front :: mElements r2 ∧
     mpStream r2 = mpStream r1 ∧ mParser r2 = mParser r1).
Proof.
  intros Hlive HE.
  destruct (IsEOF_returned fuel r b r1 HE)
    as [(Hn & _)|(_ & Hl1 & HP & ->)]; [done|].
  assert (Hsame : ReadElement BUFSIZ fuel' r1 = ReadElement BUFSIZ fuel r).
  { unfold ReadElement.
    by rewrite HP, (Parse_returned_again fuel fuel' r r1 HP). }
  split; [done|]. intros Hb. apply bool_decide_eq_false in Hb.
  unfold ReadElement. rewrite (Parse_returned_again fuel fuel' r r1 HP).
  simpl. destruct (mElements r1) as [|front rest]; [done|].
  by eexists _, _.
Qed.

(** X5.  [ReadElement] must not be called at the end: on a reader with parser
    and stream it has undefined behaviour (it takes the head of an empty
    list) in exactly the states in which [IsEOF] returns true. *)
Theorem ReadElement_undefined_iff_IsEOF fuel r :
  live r →
  ReadElement BUFSIZ fuel r = Undefined ↔
  ∃ r1, IsEOF BUFSIZ fuel r = Returned true r1.
Proof.
  intros Hlive. rewrite (IsEOF_live fuel r Hlive). unfold ReadElement.
  pose proof (Parse_keeps_live fuel r Hlive) as Hl.
  destruct (Parse BUFSIZ fuel r) as [[] r1|e r1| |]; simpl.
  - destruct (mElements r1) as [|front rest] eqn:Hq.
    + split; [|done]. intros _. exists r1. by rewrite bool_decide_true.
    + split; [done|]. intros [r1' Hb]. rewrite bool_decide_false in Hb; done.
  - split; [done|]. by intros [? ?].
  - done.
  - split; [done|]. by intros [? ?].
Qed.

(** X6.  [IsEOF], however it ends, and a [ReadElement] that ends by the
    exception, free nothing and change no element: the current element
    (the one the last [ReadElement] returned a reference to) is the same
    and every allocated cell keeps its contents; the pending list has
    only grown at its end. *)
Theorem reference_survives_test_and_failure fuel r r1 :
  (∃ b, IsEOF BUFSIZ fuel r = Returned b r1) ∨
  (∃ e, IsEOF BUFSIZ fuel r = Thrown e r1) ∨
  (∃ e, ReadElement BUFSIZ fuel r = Thrown e r1) →
  mpCurrentElement r1 = mpCurrentElement r ∧
  (∃ new, mElements r1 = mElements r ++ new) ∧
  ∀ a el, heap r !! a = Some el → heap r1 !! a = Some el.
Proof.
  intros Hop.
  assert (Hext : extends r r1).
  { pose proof (Parse_inv BUFSIZ fuel r) as Hinv.
    destruct Hop as [[b Hop]|[[e Hop]|[e Hop]]].
    - destruct (IsEOF_returned fuel r b r1 Hop)
        as [(_ & -> & _)|(_ & _ & HP & _)]; [apply extends_refl|].
      rewrite HP in Hinv. apply Hinv.
    - unfold IsEOF in Hop. destruct (mParser r), (mpStream r); try done.
      destruct (Parse BUFSIZ fuel r) as [u r1'|e1 r1'| |]; try done.
      injection Hop as _ <-. apply Hinv.
    - unfold ReadElement in Hop.
      destruct (Parse BUFSIZ fuel r) as [u r1'|e1 r1'| |]; try done.
      + simpl in Hop. by destruct (mElements r1').
      + injection Hop as _ <-. apply Hinv. }
  destruct Hext as (Hc & new & Hq & _ & _ & _ & Hm & _).
  split; [done|]. split; [by exists new|done].
Qed.

(** X7.  The end of the input is final: once [IsEOF] has returned true on a
    reader with parser and stream, no operation changes the reader any
    more, whatever is called and however often; [IsEOF] keeps returning
    true and [ReadElement] has undefined behaviour. *)
Theorem end_of_input_is_final fuel r r1 r2 :
  live r →
  IsEOF BUFSIZ fuel r = Returned true r1 →
  rtc (op_step BUFSIZ) r1 r2 →
  r2 = r1 ∧
  ∀ fuel', IsEOF BUFSIZ fuel' r2 = Returned true r2 ∧
           ReadElement BUFSIZ fuel' r2 = Undefined.
Proof.
  intros Hlive HE Hrtc.
  destruct (IsEOF_returned fuel r true r1 HE)
    as [(Hn & _)|(_ & Hl1 & HP & Hb)]; [done|].
  symmetry in Hb. apply bool_decide_eq_true in Hb.
  assert (Hc : consumed r1).
  { pose proof (Parse_inv BUFSIZ fuel r) as Hinv. rewrite HP in Hinv.
    by destruct Hinv as (_ & [?|?] & _). }
  assert (r2 = r1) as -> by (eapply at_end_forever; eauto).
  split; [done|]. intros fuel'.
  assert (HP' : Parse BUFSIZ fuel' r1 = Returned () r1)
    by apply (Parse_returned_again fuel fuel' r r1 HP).
  split.
  - rewrite (IsEOF_live fuel' r1 Hl1), HP'. simpl. by rewrite bool_decide_true.
  - unfold ReadElement. rewrite HP'. simpl. by rewrite Hb.
Qed.

(** X8.  A reader constructed on a null stream stays as the constructor
    left it for all its life: whatever is called, nothing is read and
    nothing is allocated, [IsEOF] returns true, and [ReadElement] has
    undefined behaviour (its parse step calls [IsEOF] of the null
    stream). *)
Theorem reader_without_stream_is_inert (parser : option P) h r :
  rtc (op_step BUFSIZ) (XMLReader_new None parser h) r →
  r = XMLReader_new None parser h ∧
  ∀ fuel, IsEOF BUFSIZ fuel r = Returned true r ∧
          ReadElement BUFSIZ fuel r = Undefined.
Proof.
  intros Hrtc.
  assert (r = XMLReader_new None parser h) as ->.
  { eapply at_end_forever; [done|by left|done]. }
  split; [done|]. intros fuel. split.
  - by apply at_end_IsEOF; [|left].
  - by apply at_end_ReadElement; [|left].
Qed.

End ReaderProtocol.

(** ** The free store over the life of a reader *)

Section ReaderStore.
Context {S P : Type} {stream : IStream.t S} {expat : Expat.t P}.
Variable BUFSIZ : nat.
Implicit Types r : XMLReader S P.

Lemma checked_fold_none l :
  fold_left (λ oh p, oh ≫= checked_delete (Some p)) l None = None.
Proof. induction l; simpl; auto. Qed.

(** A run of checked deletions goes through exactly when the cells are
    pairwise distinct and allocated. *)
Lemma checked_fold_spec l (h h' : gmap positive XMLElement) :
  fold_left (λ oh p, oh ≫= checked_delete (Some p)) l (Some h) = Some h' ↔
  NoDup l ∧ Forall (λ a, is_Some (h !! a)) l ∧
  h' = fold_left (λ h p, delete p h) l h.
Proof.
  revert h. induction l as [|a l IH]; intros h; cbn [fold_left].
  - split.
    + intros [= <-]. split; [constructor|]. split; [constructor|done].
    + by intros (_ & _ & ->).
  - rewrite NoDup_cons, Forall_cons.
    change (Some h ≫= checked_delete (Some a)) with (checked_delete (Some a) h).
    unfold checked_delete. destruct (h !! a) as [e|] eqn:Ha.
    + rewrite IH. split.
      * intros (Hnd & Hall & ->). rewrite Forall_forall in Hall.
        split; [split; [|done]|split; [split; [by eexists|]|done]].
        -- intros Hin. destruct (Hall a Hin) as [? Hx].
           by rewrite lookup_delete_eq in Hx.
        -- apply Forall_forall. intros b Hb. destruct (Hall b Hb) as [x Hx].
           destruct (decide (b = a)) as [->|Hne];
             [by rewrite lookup_delete_eq in Hx|].
           rewrite lookup_delete_ne in Hx by done. by eexists.
      * intros ((Hnin & Hnd) & (_ & Hall) & ->). rewrite Forall_forall in Hall.
        split; [done|]. split; [|done]. apply Forall_forall. intros b Hb.
        rewrite lookup_delete_ne; [by apply Hall|]. by intros ->.
    + rewrite checked_fold_none. split; [done|].
      intros (_ & ([? ?] & _) & _). done.
Qed.

Lemma XMLReader_delete_checked_owned r :
  XMLReader_delete_checked r =
  fold_left (λ oh p, oh ≫= checked_delete (Some p)) (owned r) (Some (heap r)).
Proof.
  unfold XMLReader_delete_checked, owned.
  by destruct (mpCurrentElement r).
Qed.

Lemma XMLReader_delete_owned r :
  XMLReader_delete r = fold_left (λ h p, delete p h) (owned r) (heap r).
Proof. unfold XMLReader_delete, owned. by destruct (mpCurrentElement r). Qed.

(** X1.  The destructor.  Its deletions are all defined exactly when the
    ownership invariant holds (each cell the reader owns is allocated
    and is owned once); the free store it leaves has none of the cells
    the reader owned, and every other cell as it was. *)
Theorem destructor_frees_what_the_reader_owns r :
  (is_Some (XMLReader_delete_checked r) ↔ wf r) ∧
  (∀ h', XMLReader_delete_checked r = Some h' → h' = XMLReader_delete r) ∧
  (∀ a, a ∈ owned r → XMLReader_delete r !! a = None) ∧
  (∀ a, a ∉ owned r → XMLReader_delete r !! a = heap r !! a).
Proof.
  rewrite XMLReader_delete_checked_owned, XMLReader_delete_owned.
  split; [|split; [|rewrite <- XMLReader_delete_owned;
                    apply XMLReader_delete_frees]].
  - split.
    + intros [h' Hh]. apply checked_fold_spec in Hh as (? & ? & _). by split.
    + intros [Hnd Hal]. eexists. apply checked_fold_spec. done.
  - intros h' Hh. by apply checked_fold_spec in Hh as (_ & _ & ->).
Qed.

(** The free store around the reader is kept while the reader works. *)
Lemma rest_of_store_extends (h : gmap positive XMLElement) r r1 :
  wf r → rest_of_store h r → extends r r1 → rest_of_store h r1.
Proof.
  intros [_ Hal] [Hown Hrest] (Hc & new & Hq & _ & Hfresh & _ & Hm & Hn).
  rewrite Forall_forall in Hal, Hfresh.
  assert (Ho : ∀ a, a ∈ owned r1 ↔ a ∈ owned r ∨ a ∈ new).
  { intros a. unfold owned. rewrite Hc, Hq, !elem_of_app. tauto. }
  split; intros a Ha.
  - apply Ho in Ha as [Ha|Ha]; [auto|].
    destruct (decide (a ∈ owned r)) as [Hin|Hnin]; [auto|].
    rewrite <- Hrest by done. auto.
  - rewrite Ho in Ha.
    assert (Ha1 : a ∉ owned r) by tauto. assert (Ha2 : a ∉ new) by tauto.
    rewrite <- Hrest by done.
    destruct (heap r !! a) as [e|] eqn:He; [by apply Hm|by apply Hn].
Qed.

Lemma rest_of_store_op_step (h : gmap positive XMLElement) r r' :
  wf r → rest_of_store h r → op_step BUFSIZ r r' → rest_of_store h r'.
Proof.
  intros Hwf Hrest Hstep.
  destruct (op_step_cases BUFSIZ r r' Hstep) as (r1 & Hext & Hcase).
  pose proof (rest_of_store_extends h r r1 Hwf Hrest Hext) as [Hown1 Hrest1].
  destruct Hcase as [->|(front & rest & Hq & ->)]; [done|].
  assert (Ho1 : ∀ a, a ∈ owned r1 ↔
            Some a = mpCurrentElement r1 ∨ a ∈ front :: rest).
  { intros a. unfold owned. rewrite Hq, elem_of_app.
    destruct (mpCurrentElement r1) as [c|]; simpl.
    - rewrite list_elem_of_singleton. split; intros [?|?]; auto; left; congruence.
    - rewrite elem_of_nil. split; intros [?|?]; auto; done. }
  split; unfold owned; cbn [mpCurrentElement mElements heap option_list app];
    intros a Ha.
  - apply Hown1, Ho1. by right.
  - destruct (decide (Some a = mpCurrentElement r1)) as [Hcur|Hcur].
    + rewrite <- Hcur. simpl. rewrite lookup_delete_eq. symmetry.
      apply Hown1, Ho1. by left.
    + rewrite <- Hrest1 by (rewrite Ho1; tauto).
      destruct (mpCurrentElement r1) as [c|]; [|done]. simpl.
      apply lookup_delete_ne. congruence.
Qed.

(** X2.  No leak and no double deletion over the whole life of a reader:
    from its construction on a free store [h], through any operations
    (returning or leaving by the exception) up to its destruction, the
    reader keeps the ownership invariant, every deletion of the
    destructor is defined, and the free store the destructor leaves is
    [h] again. *)
Theorem reader_leaves_the_store_as_it_found_it (pStream : option S)
    (parser : option P) h r :
  rtc (op_step BUFSIZ) (XMLReader_new pStream parser h) r →
  wf r ∧ XMLReader_delete_checked r = Some h.
Proof.
  intros Hrtc.
  assert (Hinv : wf r ∧ rest_of_store h r).
  { revert r Hrtc. apply rtc_ind_r.
    - split; [apply wf_new|]. split; [by intros a ?%elem_of_nil|done].
    - intros r1 r2 _ Hstep [Hwf Hrest].
      split; [by eapply wf_op_step|by eapply rest_of_store_op_step]. }
  destruct Hinv as [Hwf [Hown Hrest]]. split; [done|].
  rewrite XMLReader_delete_checked_owned. apply checked_fold_spec.
  destruct Hwf as [Hnd Hal]. split; [done|]. split; [done|].
  rewrite <- XMLReader_delete_owned. apply map_eq. intros a.
  destruct (XMLReader_delete_frees r) as [Hfreed Hkept].
  destruct (decide (a ∈ owned r)) as [Hin|Hnin].
  - by rewrite Hfreed, Hown.
  - by rewrite Hkept, Hrest.
Qed.

End ReaderStore.

(** ** The client loop over a whole stream *)

Section ClientLoop.
Context {S P : Type} {stream : IStream.t S} {expat : Expat.t P}.
Variable BUFSIZ : nat.
Implicit Types r : XMLReader S P.

(** *** More iterations than needed change nothing *)

Lemma Parse_fuel fuel r :
  Parse BUFSIZ fuel r ≠ OutOfFuel →
  Parse BUFSIZ (Datatypes.S fuel) r = Parse BUFSIZ fuel r.
Proof.
  revert r. induction fuel as [|fuel IH]; intros r;
    rewrite (Parse_eq BUFSIZ (Datatypes.S _) r), (Parse_eq BUFSIZ _ r);
    (destruct (mElements r); [|done]);
    (destruct (mpStream r) as [s|]; [|done]);
    (destruct (IStream.IsEOF s); [done|]); [done|].
  destruct (read_chunk BUFSIZ s) as [c s'].
  destruct (mParser r) as [p|]; [|done].
  destruct (Expat.XML_Parse _ _ _ _) as [[evs p'] status].
  destruct status; [done|apply IH..].
Qed.

Lemma IsEOF_fuel fuel r :
  IsEOF BUFSIZ fuel r ≠ OutOfFuel →
  IsEOF BUFSIZ (Datatypes.S fuel) r = IsEOF BUFSIZ fuel r.
Proof.
  unfold IsEOF. destruct (mParser r), (mpStream r); try done.
  intros H. rewrite Parse_fuel; [done|]. intros HP. by rewrite HP in H.
Qed.

Lemma ReadElement_fuel fuel r :
  ReadElement BUFSIZ fuel r ≠ OutOfFuel →
  ReadElement BUFSIZ (Datatypes.S fuel) r = ReadElement BUFSIZ fuel r.
Proof.
  unfold ReadElement. intros H. rewrite Parse_fuel; [done|].
  intros HP. by rewrite HP in H.
Qed.

Lemma drain_fuel fuel :
  ∀ r es r',
    drain BUFSIZ fuel r = Returned es r' →
    drain BUFSIZ (Datatypes.S fuel) r = Returned es r'.
Proof.
  induction fuel as [|fuel IH]; intros r es r' H; [done|].
  rewrite drain_eq in H. rewrite drain_eq.
  destruct (IsEOF BUFSIZ (Datatypes.S fuel) r) as [eof r1|e r1| |] eqn:HE;
    try done.
  rewrite IsEOF_fuel, HE by (by rewrite HE). cbn [bind] in *.
  destruct eof; [done|].
  destruct (ReadElement BUFSIZ (Datatypes.S fuel) r1) as [a r2|e r2| |] eqn:HR;
    try done.
  rewrite ReadElement_fuel, HR by (by rewrite HR). cbn [bind] in *.
  destruct (heap r2 !! a); [|done].
  destruct (drain BUFSIZ fuel r2) as [es2 r3|e r3| |] eqn:HD; try done.
  by rewrite (IH r2 es2 r3 HD).
Qed.

Lemma drain_fuel_le fuel fuel' r es r' :
  fuel ≤ fuel' →
  drain BUFSIZ fuel r = Returned es r' →
  drain BUFSIZ fuel' r = Returned es r'.
Proof.
  induction 1 as [|fuel' _ IH]; [done|]. intros Hret. by apply drain_fuel, IH.
Qed.

(** *** A stream the tokenizer rejects *)

(** The parse step on an empty pending list, for a stream whose chunks
    the tokenizer rejects at some point: it throws, or it returns with
    the events of a chunk before the rejected one pending. *)
Lemma Parse_delivers_error s cs :
  delivers BUFSIZ s cs →
  ∀ p r evs fuel,
    feed p cs = (evs, XML_STATUS_ERROR) →
    mpStream r = Some s → mParser r = Some p → mElements r = [] →
    length cs ≤ fuel →
    (∃ e r1, Parse BUFSIZ fuel r = Thrown e r1) ∨
    (∃ s1 p1 cs1 evs0 evs1,
      Parse BUFSIZ fuel r = Returned () (deliver evs0 (with_io s1 p1 r)) ∧
      delivers BUFSIZ s1 cs1 ∧ feed p1 cs1 = (evs1, XML_STATUS_ERROR) ∧
      evs = evs0 ++ evs1 ∧ length cs1 < length cs ∧ evs0 ≠ []).
Proof.
  induction 1 as [s He|s s' c cs He Hr Hd IH];
    intros p r evs fuel Hfeed Hs Hp Hq Hfuel; [done|].
  destruct fuel as [|fuel]; [simpl in Hfuel; lia|]. simpl in Hfeed, Hfuel.
  rewrite <- (delivers_flag BUFSIZ s' cs Hd) in Hfeed.
  destruct (Expat.XML_Parse p c (int_of_size_t (length c)) (IStream.IsEOF s'))
    as [[evs_c p'] status_c] eqn:Hx.
  rewrite (Parse_iteration BUFSIZ fuel r s s' p p' c evs_c status_c) by done.
  destruct (feed p' cs) as [evs' status'] eqn:Hfeed'.
  assert (Hcont : evs = evs_c ++ evs' → status' = XML_STATUS_ERROR →
    (∃ e r1, Parse BUFSIZ fuel (deliver evs_c (with_io s' p' r)) = Thrown e r1) ∨
    (∃ s1 p1 cs1 evs0 evs1,
      Parse BUFSIZ fuel (deliver evs_c (with_io s' p' r))
        = Returned () (deliver evs0 (with_io s1 p1 r)) ∧
      delivers BUFSIZ s1 cs1 ∧ feed p1 cs1 = (evs1, XML_STATUS_ERROR) ∧
      evs = evs0 ++ evs1 ∧ length cs1 < Datatypes.S (length cs) ∧ evs0 ≠ [])).
  { intros -> ->. destruct evs_c as [|ev evs_c].
    - destruct (IH p' (with_io s' p' r) evs' fuel)
        as [(e & r1 & HP)|(s1 & p1 & cs1 & evs0 & evs1 & HP & ? & ? & ? & ? & ?)];
        try done; [lia| |].
      + left. by exists e, r1.
      + right. exists s1, p1, cs1, evs0, evs1. unfold deliver at 1. simpl.
        rewrite HP. repeat split; auto with lia.
    - right. exists s', p', cs, (ev :: evs_c), evs'.
      rewrite Parse_nonempty by apply deliver_nonempty.
      repeat split; auto with lia. }
  destruct status_c; [left; by eexists _, _| |];
    injection Hfeed as <- ->; apply Hcont; done.
Qed.

Lemma drain_throws n :
  ∀ r s p cs evs,
    length (mElements r) + length evs + length cs ≤ n →
    wf r → mpStream r = Some s → mParser r = Some p →
    delivers BUFSIZ s cs → feed p cs = (evs, XML_STATUS_ERROR) →
    ∃ e r', drain BUFSIZ (Datatypes.S n) r = Thrown e r'.
Proof.
  induction n as [n IH] using lt_wf_ind.
  assert (Hpending : ∀ r s p cs evs,
    mElements r ≠ [] →
    length (mElements r) + length evs + length cs ≤ n →
    wf r → mpStream r = Some s → mParser r = Some p →
    delivers BUFSIZ s cs → feed p cs = (evs, XML_STATUS_ERROR) →
    ∃ e r', drain BUFSIZ (Datatypes.S n) r = Thrown e r').
  { intros r s p cs evs Hne Hm Hwf Hs Hp Hd Hfeed.
    destruct (mElements r) as [|a q] eqn:Hq; [done|].
    destruct n as [|n]; [simpl in Hm; lia|].
    rewrite drain_eq, IsEOF_pending; [|split; eauto|by rewrite Hq]. cbn [bind].
    assert (HParse : Parse BUFSIZ (Datatypes.S (Datatypes.S n)) r = Returned () r).
    { apply Parse_nonempty. by rewrite Hq. }
    destruct (ReadElement_front BUFSIZ _ r r a q Hwf HParse Hq)
      as (r2 & e0 & -> & Hq2 & _ & He0 & He2 & _ & _ & Hrest & Hs2 & Hp2 & Hwf2).
    cbn [bind]. rewrite He2.
    destruct (IH n (Nat.lt_succ_diag_r n) r2 s p cs evs)
      as (e & r' & ->); try done.
    - rewrite Hq2. simpl in Hm. lia.
    - congruence.
    - congruence.
    - by exists e, r'. }
  intros r s p cs evs Hm Hwf Hs Hp Hd Hfeed.
  destruct (mElements r) as [|a q] eqn:Hq.
  2:{ eapply Hpending; eauto; by rewrite Hq. }
  simpl in Hm.
  destruct (Parse_delivers_error s cs Hd p r evs (Datatypes.S n))
    as [(e & r1 & HP)
       |(s1 & p1 & cs1 & evs0 & evs1 & HP & Hd1 & Hfeed1 & -> & Hlen & Hne0)];
    try done; [lia| |].
  { exists e, r1. rewrite drain_eq. unfold IsEOF. by rewrite Hp, Hs, HP. }
  set (r1 := deliver evs0 (with_io s1 p1 r)) in *.
  assert (Hwf1 : wf r1).
  { eapply wf_extends; [exact Hwf|].
    eapply extends_trans; [apply with_io_extends|apply deliver_extends]. }
  destruct (deliver_fields evs0 (with_io s1 p1 r)) as (Hs1 & Hp1 & _).
  fold r1 in Hs1, Hp1. simpl in Hs1, Hp1.
  assert (HE : IsEOF BUFSIZ (Datatypes.S n) r =
               Returned (bool_decide (mElements r1 = [])) r1).
  { unfold IsEOF. by rewrite Hp, Hs, HP. }
  destruct evs0 as [|ev evs0]; [done|].
  assert (Hne : mElements r1 ≠ []) by apply deliver_nonempty.
  assert (Hsame : drain BUFSIZ (Datatypes.S n) r = drain BUFSIZ (Datatypes.S n) r1).
  { rewrite !drain_eq, HE, IsEOF_pending; [|split; eauto|done].
    by rewrite bool_decide_false. }
  rewrite Hsame.
  eapply (Hpending r1 s1 p1 cs1 evs1); try done.
  rewrite length_app in Hm.
  pose proof (Forall2_length _ _ _
                (deliver_queued (ev :: evs0) s1 p1 r Hq)) as Hl.
  fold r1 in Hl. rewrite length_fmap in Hl. lia.
Qed.

(** X9.  Over a whole stream the client loop hands out exactly one element
    per event the tokenizer reports, in the order of the events, across
    all the chunks the stream delivers and all the parse steps this
    takes; then nothing is pending and the stream is consumed. *)
Theorem client_loop_delivers_every_event (s : S) (p : P) cs h fuel :
  delivers BUFSIZ s cs →
  (feed p cs).2 ≠ XML_STATUS_ERROR →
  length (feed p cs).1 + length cs < fuel →
  ∃ r', drain BUFSIZ fuel (XMLReader_new (Some s) (Some p) h)
          = Returned (element_of_event <$> (feed p cs).1) r' ∧
        mElements r' = [] ∧ consumed r'.
Proof.
  intros Hd Hok Hfuel.
  destruct (drain_new BUFSIZ s p cs h fuel Hd Hok Hfuel)
    as (r' & ? & ? & ? & _).
  by exists r'.
Qed.

(** X10.  Malformed input cannot get through: when the tokenizer rejects a
    chunk of the stream, the client loop leaves by the exception (given
    iterations enough to reach the chunk), and it never returns a
    sequence of elements as if the input had ended normally. *)
Theorem client_loop_fails_on_rejected_input (s : S) (p : P) cs h :
  delivers BUFSIZ s cs →
  (feed p cs).2 = XML_STATUS_ERROR →
  (∀ fuel, length (feed p cs).1 + length cs < fuel →
     ∃ e r', drain BUFSIZ fuel (XMLReader_new (Some s) (Some p) h)
               = Thrown e r') ∧
  (∀ fuel es r', drain BUFSIZ fuel (XMLReader_new (Some s) (Some p) h)
                   ≠ Returned es r').
Proof.
  intros Hd Hbad. destruct (feed p cs) as [evs status] eqn:Hfeed.
  simpl in Hbad. subst status. cbn [fst].
  assert (Hthrows : ∀ fuel, length evs + length cs < fuel →
    ∃ e r', drain BUFSIZ fuel (XMLReader_new (Some s) (Some p) h) = Thrown e r').
  { intros [|n] Hfuel; [lia|].
    apply (drain_throws n _ s p cs evs); try done; [simpl; lia|apply wf_new]. }
  split; [done|]. intros fuel es r' Hret.
  set (big := Datatypes.S (fuel + length evs + length cs)).
  destruct (Hthrows big) as (e & r1 & Hthrown); [unfold big; lia|].
  rewrite (drain_fuel_le fuel big _ es r') in Hthrown; [done| |done].
  unfold big. lia.
Qed.

(** X11.  Empty input.  On a stream that is at its end when the reader is
    constructed the tokenizer is never called, not even to be told that
    the input has ended: [IsEOF] returns true and nothing is thrown
    (although no XML document is empty), the client loop delivers no
    element, and [ReadElement] has undefined behaviour. *)
Theorem empty_input_is_end_of_input (s : S) (p : P) h fuel :
  IStream.IsEOF s = true →
  let r := XMLReader_new (Some s) (Some p) h in
  IsEOF BUFSIZ fuel r = Returned true r ∧
  drain BUFSIZ (Datatypes.S fuel) r = Returned [] r ∧
  ReadElement BUFSIZ fuel r = Undefined.
Proof.
  intros He r.
  assert (HP : ∀ fuel', Parse BUFSIZ fuel' r = Returned () r).
  { intros fuel'. by apply (Parse_at_eof BUFSIZ fuel' r s). }
  assert (HE : ∀ fuel', IsEOF BUFSIZ fuel' r = Returned true r).
  { intros fuel'. unfold IsEOF. simpl. by rewrite HP. }
  split; [done|]. split.
  - by rewrite drain_eq, HE.
  - unfold ReadElement. by rewrite HP.
Qed.

(** X12.  One read is enough: when the chunk the parse step reads makes the
    tokenizer report an event, the step returns after this one read and
    this one call of the tokenizer, whatever the stream still holds; the
    elements of the events of that chunk are pending. *)
Theorem Parse_stops_at_first_event fuel r (s s' : S) (p p' : P) c ev evs status :
  mElements r = [] → mpStream r = Some s → mParser r = Some p →
  IStream.IsEOF s = false →
  read_chunk BUFSIZ s = (c, s') →
  Expat.XML_Parse p c (int_of_size_t (length c)) (IStream.IsEOF s')
    = (ev :: evs, p', status) →
  status ≠ XML_STATUS_ERROR →
  ∃ r1, Parse BUFSIZ (Datatypes.S fuel) r = Returned () r1 ∧
        mpStream r1 = Some s' ∧ mParser r1 = Some p' ∧
        Forall2 (λ a e, heap r1 !! a = Some e) (mElements r1)
                (element_of_event <$> ev :: evs).
Proof.
  intros Hq Hs Hp He Hr Hx Hok.
  exists (deliver (ev :: evs) (with_io s' p' r)).
  rewrite (Parse_iteration BUFSIZ fuel r s s' p p' c (ev :: evs) status) by done.
  destruct (deliver_fields (ev :: evs) (with_io s' p' r)) as (Hs' & Hp' & _).
  split; [|split; [done|split; [done|by apply deliver_queued]]].
  destruct status; [done| |]; apply Parse_nonempty, deliver_nonempty.
Qed.

End ClientLoop.

(** ** The attribute loop and the length cast *)

Lemma set_attribute_fold_map atts e :
  attributes (fold_left set_attribute atts e)
  = list_to_map (reverse atts) ∪ attributes e.
Proof.
  revert e. induction atts as [|[k v] atts IH]; intros e.
  - simpl. by rewrite (left_id_L ∅ (∪)).
  - cbn [fold_left]. rewrite IH, reverse_cons, list_to_map_app.
    simpl. rewrite <- (assoc_L (∪)). f_equal.
    rewrite insert_empty. by rewrite <- insert_union_singleton_l.
Qed.

(** X13.  [OnStartElement] for any attribute array, repeated names included:
    it appends one new start-tag element with the given name whose map
    holds, for each name of the array, the value given last for it, and
    nothing for any other name. *)
Theorem start_element_keeps_last_value {S P : Type} (r : XMLReader S P) nm atts :
  let r' := OnStartElement r nm atts in
  mElements r' = mElements r ++ [new_addr (heap r)] ∧
  heap r' !! new_addr (heap r)
    = Some (StartTag nm (list_to_map (reverse atts))) ∧
  (∀ l1 k v l2, atts = l1 ++ (k, v) :: l2 → k ∉ l2.*1 →
     (list_to_map (reverse atts) : gmap string string) !! k = Some v) ∧
  (∀ k, k ∉ atts.*1 →
     (list_to_map (reverse atts) : gmap string string) !! k = None).
Proof.
  intros r'. split; [done|]. split; [|split].
  - unfold r', OnStartElement, push_back_new. cbn [heap].
    rewrite lookup_insert_eq. f_equal.
    destruct (set_attribute_fold_kind atts (set_name nm (new_XMLElement kStart)))
      as [Hk Hn].
    pose proof (set_attribute_fold_map atts (set_name nm (new_XMLElement kStart)))
      as Ha.
    destruct (fold_left set_attribute atts _) as [k n a]. simpl in *.
    subst. unfold StartTag. f_equal. by rewrite (right_id_L ∅ (∪)).
  - intros l1 k v l2 -> Hk.
    rewrite reverse_app, reverse_cons, !list_to_map_app.
    apply lookup_union_Some_l. rewrite lookup_union_r.
    + simpl. by rewrite lookup_insert_eq.
    + apply not_elem_of_list_to_map_1. by rewrite fmap_reverse, elem_of_reverse.
  - intros k Hk. apply not_elem_of_list_to_map_1.
    by rewrite fmap_reverse, elem_of_reverse.
Qed.

(** X14.  The cast [(int)length]: the tokenizer is told the true length of a
    chunk exactly when the chunk is shorter than 2^31 bytes; the value it
    is told is always a 32-bit integer. *)
Theorem length_cast_exact_below_2GiB n :
  (int_of_size_t n = Z.of_nat n ↔ (Z.of_nat n < 2 ^ 31)%Z) ∧
  (- 2 ^ 31 ≤ int_of_size_t n < 2 ^ 31)%Z.
Proof.
  unfold int_of_size_t.
  pose proof (Z.mod_pos_bound (Z.of_nat n + 2 ^ 31) (2 ^ 32) eq_refl) as Hb.
  split; [|lia]. split.
  - lia.
  - intros Hn. rewrite Z.mod_small by lia. lia.
Qed.

(** ** The stream in memory delivers its content *)

(** Whatever the chunks the content is held in, the reads of the loop
    deliver it, in chunks no longer than the buffer on the buffered path
    and in one piece on the optimized path. *)
Lemma MemStream_delivers BUFSIZ (optimized : bool) (content : list (list byte)) :
  0 < BUFSIZ →
  ∃ cs, delivers BUFSIZ (MemStream.mk optimized content) cs ∧
        concat cs = concat content.
Proof.
  intros HB. destruct optimized.
  - destruct content as [|c content].
    + exists []. split; [by constructor|done].
    + exists [concat (c :: content)]. split; [|simpl; by rewrite app_nil_r].
      apply (delivers_read BUFSIZ _ (MemStream.mk true [])); [done| |by constructor].
      unfold read_chunk. cbn [IStream.CanReadOptimized MemStream.stream
        MemStream.CanReadOptimized MemStream.optimized IStream.ReadOptimized
        IStream.GetLength]. unfold MemStream.ReadOptimized, MemStream.GetLength.
      cbn [MemStream.pending MemStream.optimized].
      by rewrite firstn_all, Nat.leb_refl.
  - remember (length (concat content) + length content) as n eqn:Hn.
    revert content Hn. induction n as [n IH] using lt_wf_ind.
    intros [|c content] Hn.
    + exists []. split; [by constructor|done].
    + assert (Hread : read_chunk BUFSIZ (MemStream.mk false (c :: content))
        = (take BUFSIZ c,
           MemStream.mk false (if length c <=? BUFSIZ then content
                               else drop BUFSIZ c :: content))) by done.
      simpl in Hn. rewrite length_app in Hn.
      destruct (Nat.leb_spec (length c) BUFSIZ) as [Hle|Hgt].
      * destruct (IH (length (concat content) + length content))
          with (content := content) as (cs & Hd & Hc); [lia|done|].
        exists (c :: cs). split; [|simpl; by rewrite Hc].
        eapply delivers_read; [done| |exact Hd].
        by rewrite Hread, take_ge.
      * destruct (IH (length (concat (drop BUFSIZ c :: content))
                      + length (drop BUFSIZ c :: content)))
          with (content := drop BUFSIZ c :: content) as (cs & Hd & Hc);
          [simpl; rewrite length_app, length_drop; lia|done|].
        exists (take BUFSIZ c :: cs). split.
        -- eapply delivers_read; [done|exact Hread|exact Hd].
        -- simpl. rewrite Hc. simpl. by rewrite app_assoc, take_drop.
Qed.

(** On the buffered path no chunk is longer than the buffer. *)
Lemma MemStream_delivers_buffered BUFSIZ (content : list (list byte)) :
  0 < BUFSIZ →
  ∃ cs, delivers BUFSIZ (MemStream.mk false content) cs ∧
        concat cs = concat content ∧
        Forall (λ c, length c ≤ BUFSIZ) cs.
Proof.
  intros HB.
  remember (length (concat content) + length content) as n eqn:Hn.
  revert content Hn. induction n as [n IH] using lt_wf_ind.
  intros [|c content] Hn.
  - exists []. split; [by constructor|]. split; [done|constructor].
  - assert (Hread : read_chunk BUFSIZ (MemStream.mk false (c :: content))
      = (take BUFSIZ c,
         MemStream.mk false (if length c <=? BUFSIZ then content
                             else drop BUFSIZ c :: content))) by done.
    simpl in Hn. rewrite length_app in Hn.
    assert (Hshort : length (take BUFSIZ c) ≤ BUFSIZ).
    { rewrite length_take. lia. }
    destruct (Nat.leb_spec (length c) BUFSIZ) as [Hle|Hgt].
    + destruct (IH (length (concat content) + length content))
        with (content := content) as (cs & Hd & Hc & Hall); [lia|done|].
      exists (take BUFSIZ c :: cs).
      split; [by eapply delivers_read|]. split; [|by constructor].
      simpl. by rewrite Hc, take_ge.
    + destruct (IH (length (concat (drop BUFSIZ c :: content))
                    + length (drop BUFSIZ c :: content)))
        with (content := drop BUFSIZ c :: content) as (cs & Hd & Hc & Hall);
        [simpl; rewrite length_app, length_drop; lia|done|].
      exists (take BUFSIZ c :: cs).
      split; [by eapply delivers_read|]. split; [|by constructor].
      simpl. rewrite Hc. simpl. by rewrite app_assoc, take_drop.
Qed.

(** ** The small tokenizer honours the tokenizer contract *)

Section MiniExpatFacts.
Import MiniExpat.

Lemma int_of_size_t_small n :
  (Z.of_nat n < 2 ^ 31)%Z → int_of_size_t n = Z.of_nat n.
Proof.
  intros Hn. unfold int_of_size_t.
  rewrite Z.mod_small by lia. lia.
Qed.

Lemma string_of_list_byte_app (l1 l2 : list byte) :
  string_of_list_byte (l1 ++ l2)
  = string_of_list_byte l1 +:+ string_of_list_byte l2.
Proof.
  unfold string_of_list_byte.
  induction l1 as [|b l1 IH]; simpl; [done|]. by rewrite IH.
Qed.

Lemma string_app_assoc (s1 s2 s3 : string) :
  (s1 +:+ s2) +:+ s3 = s1 +:+ (s2 +:+ s3).
Proof.
  induction s1 as [|c s1 IH]; [done|].
  change (String c ((s1 +:+ s2) +:+ s3) = String c (s1 +:+ (s2 +:+ s3))).
  by rewrite IH.
Qed.

Lemma coalesce_app_r l1 l2 l2' :
  coalesce l2 = coalesce l2' → coalesce (l1 ++ l2) = coalesce (l1 ++ l2').
Proof. unfold coalesce. rewrite !fold_right_app. by intros ->. Qed.

Lemma glue_glue s1 s2 acc :
  glue (CharacterData (s1 +:+ s2)) acc
  = glue (CharacterData s1) (glue (CharacterData s2) acc).
Proof.
  destruct acc as [|[| |s3] acc]; simpl; try done.
  by rewrite string_app_assoc.
Qed.

(** Character data that waits is reported in front of what follows. *)
Lemma flush_app t b rest :
  t ≠ [] →
  coalesce (flush (t ++ [b]) ++ rest) = coalesce (flush t ++ flush [b] ++ rest).
Proof.
  intros Ht. destruct t as [|b0 t]; [done|].
  change (flush ((b0 :: t) ++ [b]))
    with [CharacterData (string_of_list_byte ((b0 :: t) ++ [b]))].
  change (flush (b0 :: t)) with [CharacterData (string_of_list_byte (b0 :: t))].
  change (flush [b]) with [CharacterData (string_of_list_byte [b])].
  rewrite string_of_list_byte_app. unfold coalesce. cbn [app fold_right].
  apply glue_glue.
Qed.

Lemma step_in_content p txt b :
  in_content (step p txt b).1.2 (step p txt b).2.
Proof.
  unfold step, in_content. destruct (markup p) as [[[q|] buf]|] eqn:Hm;
    repeat case_match; simpl; auto.
  right. split; [done|]. congruence.
Qed.

(** Starting a scan with character data waiting, or reporting that data
    first: same parser, same events up to fragmentation. *)
Lemma scan_pending_text i :
  ∀ p txt,
    failed p = false → in_content p txt →
    (scan p txt i).2 = (scan p [] i).2 ∧
    coalesce (scan p txt i).1 = coalesce (flush txt ++ (scan p [] i).1).
Proof.
  induction i as [|b i IH]; intros p txt Hp Hin.
  - simpl. by rewrite app_nil_r.
  - destruct Hin as [->|[Hm Ho]]; [done|].
    destruct (open_tags p) as [|top below] eqn:Hopen; [done|].
    cbn [scan]. unfold step. rewrite Hm, Hopen.
    destruct (is_lt b).
    { destruct (failed (set_markup (Some (None, [])) p)).
      - simpl. by rewrite app_nil_r.
      - by destruct (scan (set_markup (Some (None, [])) p) [] i). }
    destruct (is_lf b).
    { rewrite Hp. destruct (scan p [] i) as [e2 p2]. simpl.
      by rewrite <- app_assoc. }
    destruct (is_plain b || has_code 9 b).
    2:{ change (failed (fail XML_ERROR_INVALID_TOKEN p)) with true.
        simpl. by rewrite app_nil_r. }
    rewrite Hp.
    assert (Hin' : ∀ t, in_content p t).
    { intros t. right. by rewrite Hm, Hopen. }
    destruct (IH p (txt ++ [b]) Hp (Hin' _)) as [Hp1 He1].
    destruct (IH p [b] Hp (Hin' _)) as [Hp2 He2].
    change ([] ++ [b]) with [b].
    destruct (scan p (txt ++ [b]) i) as [e1 p1], (scan p [b] i) as [e2 p2].
    cbn [fst snd app] in *. split; [congruence|].
    rewrite He1. destruct (decide (txt = [])) as [->|Hne];
      [cbn [app flush]; by rewrite He2|].
    rewrite flush_app by done. by apply coalesce_app_r.
Qed.

(** Scanning an input in two pieces, reporting the character data that
    waits at the cut: same parser, same events up to fragmentation. *)
Lemma scan_app i1 :
  ∀ i2 p txt,
    failed p = false → in_content p txt →
    failed (scan p txt (i1 ++ i2)).2 = false →
    failed (scan p txt i1).2 = false ∧
    (scan (scan p txt i1).2 [] i2).2 = (scan p txt (i1 ++ i2)).2 ∧
    coalesce (scan p txt (i1 ++ i2)).1 =
      coalesce ((scan p txt i1).1 ++ (scan (scan p txt i1).2 [] i2).1).
Proof.
  induction i1 as [|b i1 IH]; intros i2 p txt Hp Hin Hok.
  - simpl. destruct (scan_pending_text i2 p txt Hp Hin) as [-> ->]. done.
  - simpl in *. pose proof (step_in_content p txt b) as Hin1.
    destruct (step p txt b) as [[e p1] t1].
    destruct (failed p1) eqn:Hp1; [simpl in Hok; congruence|].
    specialize (IH i2 p1 t1 Hp1 Hin1).
    destruct (scan p1 t1 (i1 ++ i2)) as [e' p'].
    destruct (scan p1 t1 i1) as [e1 p1'].
    cbn [fst snd] in *. destruct (IH Hok) as (? & ? & Ht).
    split; [done|]. split; [done|]. rewrite <- app_assoc.
    by apply coalesce_app_r.
Qed.

Lemma open_element_finished nm atts p :
  finished (open_element nm atts p).2 = finished p.
Proof. unfold open_element. by repeat case_match. Qed.

Lemma close_element_finished nm p :
  finished (close_element nm p).2 = finished p.
Proof. unfold close_element. by repeat case_match. Qed.

Lemma end_of_tag_finished buf p : finished (end_of_tag buf p).2 = finished p.
Proof.
  unfold end_of_tag. destruct (parse_tag buf) as [[nm atts empty|nm]|];
    [|apply close_element_finished|done].
  pose proof (open_element_finished nm atts p) as Ho.
  destruct (open_element nm atts p) as [evs p1]. simpl in Ho.
  destruct (failed p1 || negb empty); [done|].
  pose proof (close_element_finished nm p1) as Hc.
  destruct (close_element nm p1). simpl in *. congruence.
Qed.

Lemma step_finished p txt b : finished (step p txt b).1.2 = finished p.
Proof.
  unfold step. destruct (markup p) as [[[q|] buf]|];
    repeat case_match; simpl; try done.
  pose proof (end_of_tag_finished buf p) as He.
  by match goal with H : end_of_tag _ _ = _ |- _ => rewrite H in He end.
Qed.

Lemma scan_finished i : ∀ p txt, finished (scan p txt i).2 = finished p.
Proof.
  induction i as [|b i IH]; intros p txt; simpl; [done|].
  pose proof (step_finished p txt b) as Hs.
  destruct (step p txt b) as [[e p1] t1]. simpl in Hs.
  destruct (failed p1); [done|]. specialize (IH p1 t1).
  destruct (scan p1 t1 i). simpl in *. congruence.
Qed.

(** A call on a parser in working order with a chunk whose length fits
    [int]. *)
Lemma XML_Parse_scan p c isFinal :
  failed p = false → finished p = false →
  (Z.of_nat (length c) < 2 ^ 31)%Z →
  Expat.XML_Parse p c (int_of_size_t (length c)) isFinal =
  if failed (scan p [] c).2 then ((scan p [] c).1, (scan p [] c).2, XML_STATUS_ERROR)
  else if isFinal
       then ((scan p [] c).1, (end_of_input (scan p [] c).2).1,
             (end_of_input (scan p [] c).2).2)
       else ((scan p [] c).1, (scan p [] c).2, XML_STATUS_OK).
Proof.
  intros Hp Hf Hlen.
  change (Expat.XML_Parse p c (int_of_size_t (length c)) isFinal)
    with (XML_Parse p c (int_of_size_t (length c)) isFinal).
  unfold XML_Parse. rewrite Hp, Hf.
  rewrite int_of_size_t_small by done.
  destruct (Z.ltb_spec (Z.of_nat (length c)) 0) as [?|_]; [lia|].
  rewrite Nat2Z.id, firstn_all. destruct (scan p [] c) as [evs p1].
  cbn [fst snd]. destruct (failed p1); [done|]. destruct isFinal; [|done].
  by destruct (end_of_input p1).
Qed.

Lemma feed_chunks cs :
  ∀ p,
    failed p = false → finished p = false → cs ≠ [] →
    (Z.of_nat (length (concat cs)) < 2 ^ 31)%Z →
    failed (scan p [] (concat cs)).2 = false →
    (end_of_input (scan p [] (concat cs)).2).2 = XML_STATUS_OK →
    (feed p cs).2 = XML_STATUS_OK ∧
    coalesce (feed p cs).1 = coalesce (scan p [] (concat cs)).1.
Proof.
  induction cs as [|c cs IH]; intros p Hp Hf Hne Hlen Hok Hend; [done|].
  simpl in Hlen, Hok, Hend. rewrite length_app in Hlen.
  cbn [feed concat]. pose proof (XML_Parse_scan p c) as Hx.
  destruct cs as [|c' cs].
  - simpl in *. rewrite app_nil_r in *.
    rewrite (Hx true) by (done || lia). rewrite Hok.
    destruct (end_of_input (scan p [] c).2) as [p2 status]. simpl in Hend.
    subst status. simpl. by rewrite app_nil_r.
  - destruct (scan_app c (concat (c' :: cs)) p [] Hp (or_introl eq_refl) Hok)
      as (Hokc & Hp2 & Ht).
    rewrite (Hx false) by (done || lia). rewrite Hokc.
    destruct (IH (scan p [] c).2) as [Hst Hev]; try done.
    + by rewrite scan_finished.
    + lia.
    + by rewrite Hp2.
    + by rewrite Hp2.
    + destruct (feed (scan p [] c).2 (c' :: cs)) as [evs' status'].
      cbn [fst snd] in Hst, Hev |- *. split; [done|].
      rewrite Ht. by apply coalesce_app_r.
Qed.

(** The same when each chunk fits [int], whatever the length of the
    whole. *)
Lemma feed_chunks_each cs :
  ∀ p,
    failed p = false → finished p = false → cs ≠ [] →
    Forall (λ c, (Z.of_nat (length c) < 2 ^ 31)%Z) cs →
    failed (scan p [] (concat cs)).2 = false →
    (end_of_input (scan p [] (concat cs)).2).2 = XML_STATUS_OK →
    (feed p cs).2 = XML_STATUS_OK ∧
    coalesce (feed p cs).1 = coalesce (scan p [] (concat cs)).1.
Proof.
  induction cs as [|c cs IH]; intros p Hp Hf Hne Hlen Hok Hend; [done|].
  apply Forall_cons in Hlen as [Hc Hlen]. simpl in Hok, Hend.
  cbn [feed concat]. pose proof (XML_Parse_scan p c) as Hx.
  destruct cs as [|c' cs].
  - simpl in *. rewrite app_nil_r in *.
    rewrite (Hx true) by done. rewrite Hok.
    destruct (end_of_input (scan p [] c).2) as [p2 status]. simpl in Hend.
    subst status. simpl. by rewrite app_nil_r.
  - destruct (scan_app c (concat (c' :: cs)) p [] Hp (or_introl eq_refl) Hok)
      as (Hokc & Hp2 & Ht).
    rewrite (Hx false) by done. rewrite Hokc.
    destruct (IH (scan p [] c).2) as [Hst Hev]; try done.
    + by rewrite scan_finished.
    + by rewrite Hp2.
    + by rewrite Hp2.
    + destruct (feed (scan p [] c).2 (c' :: cs)) as [evs' status'].
      cbn [fst snd] in Hst, Hev |- *. split; [done|].
      rewrite Ht. by apply coalesce_app_r.
Qed.

(** Bytes of character data inside an element only wait to be
    reported. *)
Lemma scan_character_data xs :
  ∀ p txt rest,
    markup p = None → open_tags p ≠ [] → failed p = false →
    Forall (λ b, is_lt b = false ∧ is_lf b = false ∧ is_plain b = true) xs →
    scan p txt (xs ++ rest) = scan p (txt ++ xs) rest.
Proof.
  induction xs as [|b xs IH]; intros p txt rest Hm Ho Hp Hall.
  - by rewrite app_nil_r.
  - apply Forall_cons in Hall as [(Hlt & Hlf & Hpl) Hall].
    cbn [app scan]. unfold step. rewrite Hm, Hlt.
    destruct (open_tags p) eqn:Hopen; [done|]. rewrite Hlf, Hpl. cbn [orb].
    rewrite Hp, (IH p (txt ++ [b]) rest), <- app_assoc by (done || congruence).
    change ([b] ++ xs) with (b :: xs).
    by destruct (scan p (txt ++ b :: xs) rest).
Qed.

(** The element [a] with the character data [xs] for content. *)
Lemma scan_text_element xs :
  xs ≠ [] →
  Forall (λ b, is_lt b = false ∧ is_lf b = false ∧ is_plain b = true) xs →
  scan XML_ParserCreate []
       (list_byte_of_string "<a>" ++ xs ++ list_byte_of_string "</a>")
  = ([StartElement "a" []; CharacterData (string_of_list_byte xs);
      EndElement "a"],
     mkParser None [] true false 0).
Proof.
  intros Hne Hall.
  assert (Hopen : ∀ rest,
    scan XML_ParserCreate [] (list_byte_of_string "<a>" ++ rest)
    = let '(evs, p) := scan (mkParser None ["a"] false false 0) [] rest in
      (StartElement "a" [] :: evs, p)).
  { intros rest.
    change (list_byte_of_string "<a>" ++ rest) with (x3c :: x61 :: x3e :: rest).
    cbn.
    by destruct (scan _ [] rest). }
  rewrite Hopen, (scan_character_data xs) by done.
  destruct xs as [|x xs]; [done|]. vm_compute. reflexivity.
Qed.

Lemma MiniExpat_chunking_independent : chunking_independent XML_ParserCreate.
Proof.
  intros data cs Hcs Hlen Hwf. unfold well_formed in Hwf.
  assert (Hone : feed XML_ParserCreate [data] =
    if failed (scan XML_ParserCreate [] data).2
    then ((scan XML_ParserCreate [] data).1, XML_STATUS_ERROR)
    else match (end_of_input (scan XML_ParserCreate [] data).2).2 with
         | XML_STATUS_ERROR => ((scan XML_ParserCreate [] data).1, XML_STATUS_ERROR)
         | _ => ((scan XML_ParserCreate [] data).1 ++ [], XML_STATUS_OK)
         end).
  { cbn [feed]. rewrite (XML_Parse_scan XML_ParserCreate data true) by done.
    by destruct (failed (scan XML_ParserCreate [] data).2). }
  rewrite Hone in Hwf |- *.
  destruct (failed (scan XML_ParserCreate [] data).2) eqn:Hok; [done|].
  assert (Hend : (end_of_input (scan XML_ParserCreate [] data).2).2 = XML_STATUS_OK).
  { revert Hwf. unfold end_of_input. by repeat case_match. }
  rewrite Hend. cbn [fst snd]. rewrite app_nil_r.
  subst data. destruct cs as [|c cs]; [done|].
  destruct (feed_chunks (c :: cs) XML_ParserCreate) as [Hst Hev]; try done.
  by rewrite Hst, Hev.
Qed.

(** The same for the stream in memory and the small tokenizer, with no
    assumption left: any two ways of holding a well-formed document in
    chunks, on either read path. *)
Lemma chunking_in_memory BUFSIZ (o1 o2 : bool) (cs1 cs2 : list (list byte)) data :
  0 < BUFSIZ →
  concat cs1 = data → concat cs2 = data →
  (Z.of_nat (length data) < 2 ^ 31)%Z →
  well_formed XML_ParserCreate data →
  ∃ fuel es1 es2 r1 r2,
    drain BUFSIZ fuel (XMLReader_new (Some (MemStream.mk o1 cs1))
                                     (Some XML_ParserCreate) ∅)
      = Returned es1 r1 ∧
    drain BUFSIZ fuel (XMLReader_new (Some (MemStream.mk o2 cs2))
                                     (Some XML_ParserCreate) ∅)
      = Returned es2 r2 ∧
    coalesce_text es1 = coalesce_text es2 ∧
    tags_only es1 = tags_only es2.
Proof.
  intros HB Hc1 Hc2 Hlen Hwf.
  destruct (MemStream_delivers BUFSIZ o1 cs1 HB) as (d1 & Hd1 & Hcd1).
  destruct (MemStream_delivers BUFSIZ o2 cs2 HB) as (d2 & Hd2 & Hcd2).
  assert (Hd1' : concat d1 = data) by congruence.
  assert (Hd2' : concat d2 = data) by congruence.
  destruct (MiniExpat_chunking_independent data d1 Hd1' Hlen Hwf) as [Hok1 Ht1].
  destruct (MiniExpat_chunking_independent data d2 Hd2' Hlen Hwf) as [Hok2 Ht2].
  destruct (drain_both BUFSIZ XML_ParserCreate _ _ d1 d2 ∅ ∅ Hd1 Hd2 Hok1 Hok2)
    as (fuel & r1 & r2 & Hr1 & Hr2).
  exists fuel, (element_of_event <$> (feed XML_ParserCreate d1).1),
         (element_of_event <$> (feed XML_ParserCreate d2).1), r1, r2.
  split; [done|]. split; [done|].
  apply elements_up_to_fragmentation. congruence.
Qed.

Lemma MiniExpat_error_is_permanent :
  error_is_permanent (λ p : parser, failed p = true).
Proof.
  split.
  - intros p d l f evs p'. change Expat.XML_Parse with XML_Parse.
    unfold XML_Parse. destruct (failed p) eqn:Hp; [by intros [= <- <-]|].
    destruct (finished p); [by intros [= <- <-]|].
    destruct (l <? 0)%Z; [by intros [= <- <-]|].
    destruct (scan p [] (take (Z.to_nat l) d)) as [evs1 p1].
    destruct (failed p1) eqn:Hp1; [by intros [= <- <-]|].
    destruct f; [|done]. unfold end_of_input.
    destruct (markup p1); [by intros [= <- <-]|].
    destruct (open_tags p1); [|by intros [= <- <-]].
    destruct (root_closed p1); [done|by intros [= <- <-]].
  - intros p d l f Hp. exists p. change Expat.XML_Parse with XML_Parse.
    unfold XML_Parse. by rewrite Hp.
Qed.

(** *** A document of 2^31 bytes or more *)

(** Through the buffer, the document [<a>xs</a>], however long its
    character data [xs]: the client loop ends normally and delivers the
    start tag and the end tag (and the text in pieces). *)
Lemma text_element_through_the_buffer (xs : list byte) :
  xs ≠ [] →
  Forall (λ b, is_lt b = false ∧ is_lf b = false ∧ is_plain b = true) xs →
  ∃ fuel es r',
    drain 512 fuel
      (XMLReader_new
         (Some (MemStream.mk false
                  [list_byte_of_string "<a>" ++ xs ++ list_byte_of_string "</a>"]))
         (Some XML_ParserCreate) ∅)
      = Returned es r' ∧
    tags_only es = [StartTag "a" ∅; EndTag "a"].
Proof.
  intros Hne Hall.
  pose proof (scan_text_element xs Hne Hall) as Hscan.
  set (data := list_byte_of_string "<a>" ++ xs ++ list_byte_of_string "</a>") in *.
  destruct (MemStream_delivers_buffered 512 [data]) as (cs & Hd & Hc & Hshort);
    [lia|].
  assert (Hdata : concat cs = data).
  { rewrite Hc. cbn [concat]. apply app_nil_r. }
  destruct (feed_chunks_each cs XML_ParserCreate) as [Hst Hev]; try done.
  - intros ->. by rewrite <- Hdata in Hscan.
  - eapply Forall_impl; [exact Hshort|]. intros c Hle. simpl in Hle. lia.
  - by rewrite Hdata, Hscan.
  - by rewrite Hdata, Hscan.
  - destruct (drain_new 512 _ XML_ParserCreate cs ∅
                (Datatypes.S (length (feed XML_ParserCreate cs).1 + length cs)) Hd)
      as (r' & Hdrain & _); [by rewrite Hst|lia|].
    eexists _, _, r'. split; [exact Hdrain|].
    rewrite Hdata, Hscan in Hev. cbn [fst] in Hev.
    destruct (elements_up_to_fragmentation _ _ Hev) as [_ ->]. done.
Qed.

(** In one piece, through the optimized read, a chunk of 2^31 bytes or
    more, whatever it holds: the length the tokenizer is given is
    negative, the tokenizer refuses the call, and the client loop leaves
    by the exception with nothing delivered. *)
Lemma chunk_of_2GiB_is_refused (data : list byte) fuel :
  (2 ^ 31 ≤ Z.of_nat (length data) < 2 ^ 32)%Z →
  ∃ r1,
    drain 512 (Datatypes.S fuel)
      (XMLReader_new (Some (MemStream.mk true [data])) (Some XML_ParserCreate) ∅)
      = Thrown mk_xml_error r1 ∧
    mElements r1 = [] ∧
    (Expat.XML_ErrorString <$> (Expat.XML_GetErrorCode <$> mParser r1))
      = Some "invalid argument".
Proof.
  intros Hlen.
  set (r := XMLReader_new (Some (MemStream.mk true [data]))
                          (Some XML_ParserCreate) ∅).
  assert (Hread : read_chunk 512 (MemStream.mk true [data])
                  = (data, MemStream.mk true [])).
  { unfold read_chunk. cbn [IStream.CanReadOptimized MemStream.stream
      MemStream.CanReadOptimized MemStream.optimized IStream.ReadOptimized
      IStream.GetLength]. unfold MemStream.ReadOptimized, MemStream.GetLength.
    cbn [MemStream.pending MemStream.optimized concat].
    by rewrite app_nil_r, firstn_all, Nat.leb_refl. }
  assert (Hneg : (int_of_size_t (length data) <? 0)%Z = true).
  { apply Z.ltb_lt. unfold int_of_size_t.
    replace ((Z.of_nat (length data) + 2 ^ 31) mod 2 ^ 32)%Z
      with (Z.of_nat (length data) + 2 ^ 31 - 2 ^ 32)%Z; [lia|].
    apply Z.mod_unique_pos with (q := 1%Z); lia. }
  assert (Hx : Expat.XML_Parse XML_ParserCreate data
                 (int_of_size_t (length data))
                 (IStream.IsEOF (MemStream.mk true []))
               = ([], fail XML_ERROR_INVALID_ARGUMENT XML_ParserCreate,
                  XML_STATUS_ERROR)).
  { change (XML_Parse XML_ParserCreate data (int_of_size_t (length data)) true
            = ([], fail XML_ERROR_INVALID_ARGUMENT XML_ParserCreate,
               XML_STATUS_ERROR)).
    unfold XML_Parse.
    change (failed XML_ParserCreate) with false.
    change (finished XML_ParserCreate) with false.
    by rewrite Hneg. }
  exists (deliver [] (with_io (MemStream.mk true [])
                       (fail XML_ERROR_INVALID_ARGUMENT XML_ParserCreate) r)).
  split; [|done].
  rewrite drain_eq. unfold IsEOF. cbn [mParser mpStream r XMLReader_new].
  by rewrite (Parse_iteration 512 fuel r (MemStream.mk true [data])
                (MemStream.mk true []) XML_ParserCreate
                (fail XML_ERROR_INVALID_ARGUMENT XML_ParserCreate)
                data [] XML_STATUS_ERROR).
Qed.

End MiniExpatFacts.

(** ** The examples, evaluated *)

(** C5.  The reader on the mismatched document: the parse step throws,
    and the tokenizer has the diagnostic ("mismatched tag"); but the
    exception thrown is the only value of [xml_error], whatever the
    message it is constructed from, so nothing that looks at the
    exception can tell one diagnostic from another. *)
Theorem parse_error_drops_diagnostic :
  let r := example_reader [mismatched_document] in
  let r1 := state_after (Parse 512 1 r) r in
  Parse 512 1 r = Thrown mk_xml_error r1 ∧
  (Expat.XML_ErrorString <$> (Expat.XML_GetErrorCode <$> mParser r1))
    = Some "mismatched tag" ∧
  ∀ (observe : xml_error → wstring) (what1 what2 : wstring),
    observe (xml_error_new what1) = observe (xml_error_new what2).
Proof. split; [by vm_compute|]. split; [by vm_compute|]. done. Qed.

(** C8.  A document that is too long for one chunk: the element [a]
    with 2^31 - 5 bytes of text [x], 2^31 + 2 bytes in all.  Read through
    the buffer, 512 bytes at a time, it is accepted, and the client loop
    delivers its start tag and its end tag.  Read in one piece through
    the optimized read, its length cast to [int] is negative, the
    tokenizer refuses the call ("invalid argument"), and the first parse
    step throws: nothing is delivered.  Two ways of cutting the same
    well-formed document into chunks give different sequences of tags. *)
Theorem document_of_2GiB_read_in_one_chunk :
  ∃ n : nat, (Z.of_nat n = 2 ^ 31 - 5)%Z ∧
    let data := list_byte_of_string "<a>" ++ replicate n x78
                ++ list_byte_of_string "</a>" in
    let reader (s : MemStream.t) :=
      XMLReader_new (Some s) (Some MiniExpat.XML_ParserCreate) ∅ in
    (Z.of_nat (length data) = 2 ^ 31 + 2)%Z ∧
    (∃ fuel es r',
       drain 512 fuel (reader (MemStream.mk false [data])) = Returned es r' ∧
       tags_only es = [StartTag "a" ∅; EndTag "a"]) ∧
    (∀ fuel, ∃ r1,
       drain 512 (Datatypes.S fuel) (reader (MemStream.mk true [data]))
         = Thrown mk_xml_error r1 ∧
       mElements r1 = [] ∧
       (Expat.XML_ErrorString <$> (Expat.XML_GetErrorCode <$> mParser r1))
         = Some "invalid argument").
Proof.
  exists (Z.to_nat (2 ^ 31 - 5)).
  assert (Hn : Z.of_nat (Z.to_nat (2 ^ 31 - 5)) = (2 ^ 31 - 5)%Z)
    by (apply Z2Nat.id; lia).
  revert Hn. generalize (Z.to_nat (2 ^ 31 - 5)). intros n Hn.
  split; [exact Hn|]. intros data reader.
  assert (Hlen : (Z.of_nat (length data) = 2 ^ 31 + 2)%Z).
  { unfold data. rewrite !length_app, length_replicate.
    change (length (list_byte_of_string "<a>")) with 3.
    change (length (list_byte_of_string "</a>")) with 4. lia. }
  split; [exact Hlen|]. split.
  - apply (text_element_through_the_buffer (replicate n x78)).
    + destruct n; [lia|done].
    + apply Forall_replicate. by vm_compute.
  - intros fuel. apply (chunk_of_2GiB_is_refused data fuel). lia.
Qed.

(** C1, counterexample.  Without a parser [hasMore] returns false although
    the stream still has all of its input. *)
Lemma hasMore_false_with_input_left :
  let r := example_reader_without_parser [example_document] in
  ¬ ∀ b r1, hasMore 512 0 r = Returned b r1 →
            (b = false ↔ consumed r1 ∧ mElements r1 = []).
Proof.
  intros r Hclaim. destruct (Hclaim false r eq_refl) as [Hc _].
  destruct (Hc eq_refl) as [(s & Hs & He) _].
  injection Hs as <-. discriminate He.
Qed.

(** C6, counterexample.  Without a parser [hasMore] does not return
    true: it returns false. *)
Lemma hasMore_without_parser_is_false :
  let r := example_reader_without_parser [example_document] in
  mParser r = None ∧
  hasMore 512 0 r = Returned false r ∧
  ¬ ∃ r', hasMore 512 0 r = Returned true r'.
Proof. split; [done|]. split; [done|]. by intros [r' ?]. Qed.

(** C7, counterexample.  The element made for the character data
    [hello] has kind [kText] and a [name] member that is not empty. *)
Lemma text_element_has_name :
  let r := OnCharacterData (example_reader []) "hello" in
  ∃ a e, mElements r = [a] ∧ heap r !! a = Some e ∧
         kind e = kText ∧ name e ≠ EmptyString.
Proof. exists 1%positive, (Text "hello"). by vm_compute. Qed.


(** C9, counterexample.  On the mismatched document the parse step
    throws; the two start tags reported before the error are pending, and
    the next two calls of [ReadElement] deliver them. *)
Lemma elements_delivered_after_parse_error :
  let r := example_reader [mismatched_document] in
  let r1 := state_after (Parse 512 1 r) r in
  let r2 := state_after (ReadElement 512 0 r1) r1 in
  Parse 512 1 r = Thrown mk_xml_error r1 ∧
  ReadElement 512 0 r1 = Returned 1%positive r2 ∧
  heap r2 !! 1%positive = Some (StartTag "a" ∅) ∧
  (∃ a r3, ReadElement 512 0 r2 = Returned a r3 ∧
           heap r3 !! a = Some (StartTag "b" ∅)).
Proof.
  split; [by vm_compute|]. split; [by vm_compute|]. split; [by vm_compute|].
  eexists _, _. split; by vm_compute.
Qed.

(** ** The theorems at concrete readers *)

Lemma hasMore_spec_witness :
  let r := example_reader [example_document] in
  let r1 := state_after (Parse 512 1 r) r in
  live r ∧
  hasMore 512 1 r = Returned true r1 ∧
  (Parse 512 1 r = Returned () r1 ∧
   (true = false ↔ consumed r1 ∧ mElements r1 = []) ∧
   (true = true ↔ mElements r1 ≠ [])) ∧
  ((∃ b r1, hasMore 512 1 r = Returned b r1) ∨
   (∃ e r1, hasMore 512 1 r = Thrown e r1)).
Proof.
  intros r r1. assert (Hlive : live r) by (split; simpl; eauto).
  assert (Hret : hasMore 512 1 r = Returned true r1) by (vm_compute; reflexivity).
  assert (Hd : delivers 512 (MemStream.mk false [example_document])
                        [example_document]).
  { econstructor; [reflexivity..|]. constructor. reflexivity. }
  destruct (hasMore_spec 512 1 r Hlive) as [Hvalue Hends].
  split; [exact Hlive|]. split; [exact Hret|].
  split; [exact (Hvalue true r1 Hret)|].
  apply (Hends (MemStream.mk false [example_document]) [example_document]
               eq_refl Hd).
  simpl. lia.
Defined.

Lemma adapter_one_element_per_event_witness :
  let r := example_reader [] in
  Forall distinct_attribute_names example_events ∧
  ∃ new,
    mElements (deliver example_events r) = mElements r ++ new ∧
    Forall2 (λ ev a, ∃ e, heap (deliver example_events r) !! a = Some e
                          ∧ represents ev e)
            example_events new ∧
    NoDup new ∧
    ∀ a e, heap r !! a = Some e → heap (deliver example_events r) !! a = Some e.
Proof.
  assert (Hd : Forall distinct_attribute_names example_events).
  { unfold example_events.
    repeat match goal with
           | |- Forall _ (_ :: _) => constructor
           | |- Forall _ [] => constructor
           end; simpl; try exact I.
    - apply NoDup_singleton.
    - apply NoDup_nil_2. }
  split; [exact Hd|].
  exact (adapter_one_element_per_event example_events (example_reader []) Hd).
Defined.

Lemma element_members_by_kind_witness :
  let r := example_reader [] in
  heap r !! 4%positive = None ∧
  heap (deliver example_events r) !! 4%positive = Some (Text "hello") ∧
  ∃ ev, ev ∈ example_events ∧ Text "hello" = element_of_event ev ∧
    match ev with
    | StartElement nm _ => kind (Text "hello") = kStart ∧ name (Text "hello") = nm
    | EndElement nm =>
      kind (Text "hello") = kEnd ∧ name (Text "hello") = nm ∧
      attributes (Text "hello") = ∅
    | CharacterData s =>
      kind (Text "hello") = kText ∧ name (Text "hello") = s ∧
      attributes (Text "hello") = ∅
    end.
Proof.
  assert (H1 : heap (example_reader []) !! 4%positive = None) by reflexivity.
  assert (H2 : heap (deliver example_events (example_reader [])) !! 4%positive
               = Some (Text "hello")) by (vm_compute; reflexivity).
  split; [exact H1|]. split; [exact H2|].
  exact (element_members_by_kind example_events (example_reader [])
           4%positive (Text "hello") H1 H2).
Defined.

Lemma IsEOF_without_parser_or_stream_witness :
  let r := example_reader_without_parser [example_document] in
  IsEOF 512 7 r = Returned true r ∧ hasMore 512 7 r = Returned false r.
Proof.
  apply (IsEOF_without_parser_or_stream 512 7
           (example_reader_without_parser [example_document])).
  left. reflexivity.
Defined.

Lemma ReadElement_spec_witness :
  let r := example_reader [example_document] in
  let r1 := state_after (Parse 512 1 r) r in
  wf r ∧ Parse 512 1 r = Returned () r1 ∧
  mElements r1 = [1; 2; 3; 4; 5]%positive ∧
  (∃ new, mElements r1 = mElements r ++ new) ∧
  ∃ r2 e,
    ReadElement 512 1 r = Returned 1%positive r2 ∧
    mElements r2 = [2; 3; 4; 5]%positive ∧
    mpCurrentElement r2 = Some 1%positive ∧
    heap r1 !! 1%positive = Some e ∧ heap r2 !! 1%positive = Some e ∧
    (∀ old, mpCurrentElement r = Some old → heap r2 !! old = None) ∧
    (∀ a, a ∈ [2; 3; 4; 5]%positive → heap r2 !! a = heap r1 !! a) ∧
    wf r2.
Proof.
  intros r r1.
  assert (Hwf : wf r) by apply wf_new.
  assert (HP : Parse 512 1 r = Returned () r1) by (vm_compute; reflexivity).
  assert (Hq : mElements r1 = [1; 2; 3; 4; 5]%positive) by (vm_compute; reflexivity).
  split; [exact Hwf|]. split; [exact HP|]. split; [exact Hq|].
  exact (ReadElement_spec 512 1 r r1 1%positive [2; 3; 4; 5]%positive Hwf HP Hq).
Defined.

Lemma ReadElement_pending_frame_witness :
  let r := state_after (Parse 512 1 (example_reader [example_document]))
                       (example_reader [example_document]) in
  wf r ∧ mElements r = [1; 2; 3; 4; 5]%positive ∧
  ∃ r2,
    ReadElement 512 0 r = Returned 1%positive r2 ∧
    Parse 512 0 r = Returned () r ∧
    mpStream r2 = mpStream r ∧ mParser r2 = mParser r ∧
    mElements r2 = [2; 3; 4; 5]%positive ∧
    Datatypes.S (length (mElements r2)) = length (mElements r) ∧
    ∀ a, a ∈ mElements r2 → heap r2 !! a = heap r !! a.
Proof.
  intros r.
  assert (Hwf : wf r).
  { assert (HP : Parse 512 1 (example_reader [example_document]) = Returned () r)
      by (vm_compute; reflexivity).
    pose proof (Parse_inv 512 1 (example_reader [example_document])) as Hinv.
    rewrite HP in Hinv.
    eapply wf_extends; [apply wf_new|apply Hinv]. }
  assert (Hq : mElements r = [1; 2; 3; 4; 5]%positive) by (vm_compute; reflexivity).
  split; [exact Hwf|]. split; [exact Hq|].
  exact (ReadElement_pending_frame 512 0 r 1%positive [2; 3; 4; 5]%positive Hwf Hq).
Defined.


(** The example document one byte at a time through the buffered reads,
    and in one piece through the optimized read. *)
Lemma chunking_preserves_tags_witness :
  let bytewise := (λ b, [b]) <$> example_document in
  concat bytewise = example_document ∧
  well_formed MiniExpat.XML_ParserCreate example_document ∧
  ∃ fuel es1 es2 r1 r2,
    drain 512 fuel (XMLReader_new (Some (MemStream.mk false bytewise))
                                  (Some MiniExpat.XML_ParserCreate) ∅)
      = Returned es1 r1 ∧
    drain 512 fuel (XMLReader_new (Some (MemStream.mk true [example_document]))
                                  (Some MiniExpat.XML_ParserCreate) ∅)
      = Returned es2 r2 ∧
    coalesce_text es1 = coalesce_text es2 ∧
    tags_only es1 = tags_only es2.
Proof.
  intros bytewise.
  assert (Hc : concat bytewise = example_document) by reflexivity.
  assert (Hwf : well_formed MiniExpat.XML_ParserCreate example_document).
  { unfold well_formed. vm_compute. discriminate. }
  split; [exact Hc|]. split; [exact Hwf|].
  apply (chunking_preserves_tags 512 MiniExpat.XML_ParserCreate
           (MemStream.mk false bytewise) (MemStream.mk true [example_document])
           bytewise [example_document] example_document ∅ ∅).
  - apply MiniExpat_chunking_independent.
  - unfold bytewise, example_document. simpl.
    repeat (econstructor; [reflexivity|reflexivity|]). constructor. reflexivity.
  - econstructor; [reflexivity|reflexivity|]. constructor. reflexivity.
  - exact Hc.
  - reflexivity.
  - vm_compute. reflexivity.
  - exact Hwf.
Defined.

Lemma no_new_element_after_parse_error_witness :
  let r := example_reader [mismatched_document] in
  let r1 := state_after (Parse 512 1 r) r in
  let r2 := state_after (ReadElement 512 0 r1) r1 in
  Parse 512 1 r = Thrown mk_xml_error r1 ∧
  rtc (op_step 512) r1 r2 ∧
  (∃ k, mElements r2 = drop k (mElements r1)) ∧
  (∀ a, a ∈ mElements r2 → heap r2 !! a = heap r1 !! a) ∧
  (∃ p, mParser r2 = Some p ∧ MiniExpat.failed p = true) ∧
  (∀ fuel' s, mElements r2 = [] → mpStream r2 = Some s →
     IStream.IsEOF s = false →
     ∃ e' r3, Parse 512 (Datatypes.S fuel') r2 = Thrown e' r3 ∧
              mElements r3 = []).
Proof.
  intros r r1 r2.
  assert (HP : Parse 512 1 r = Thrown mk_xml_error r1) by (vm_compute; reflexivity).
  assert (Hstep : rtc (op_step 512) r1 r2).
  { apply rtc_once. apply (step_ReadElement 512 r1 r2 0 1%positive).
    vm_compute. reflexivity. }
  split; [exact HP|]. split; [exact Hstep|].
  exact (no_new_element_after_parse_error 512
           (λ p : MiniExpat.parser, MiniExpat.failed p = true)
           1 r mk_xml_error r1 r2
           MiniExpat_error_is_permanent (wf_new _ _ _) HP Hstep).
Defined.

(** ** The further properties at concrete readers *)

Lemma IsEOF_idempotent_witness :
  let r := example_reader [example_document] in
  let r1 := state_after (IsEOF 512 1 r) r in
  IsEOF 512 1 r = Returned false r1 ∧ IsEOF 512 0 r1 = Returned false r1.
Proof.
  intros r r1.
  assert (HE : IsEOF 512 1 r = Returned false r1) by (vm_compute; reflexivity).
  split; [exact HE|]. exact (IsEOF_idempotent 512 1 0 r false r1 HE).
Defined.

Lemma ReadElement_after_IsEOF_witness :
  let r := example_reader [example_document] in
  let r1 := state_after (IsEOF 512 1 r) r in
  live r ∧ IsEOF 512 1 r = Returned false r1 ∧
  ReadElement 512 0 r1 = ReadElement 512 1 r ∧
  (false = false →
   ∃ front r2, ReadElement 512 0 r1 = Returned front r2 ∧
     mElements r1 = front :: mElements r2 ∧
     mpStream r2 = mpStream r1 ∧ mParser r2 = mParser r1).
Proof.
  intros r r1. assert (Hlive : live r) by (split; simpl; eauto).
  assert (HE : IsEOF 512 1 r = Returned false r1) by (vm_compute; reflexivity).
  split; [exact Hlive|]. split; [exact HE|].
  exact (ReadElement_after_IsEOF 512 1 0 r false r1 Hlive HE).
Defined.

(** A reader over an empty stream. *)
Lemma ReadElement_undefined_iff_IsEOF_witness :
  let r := example_reader [] in
  live r ∧
  (ReadElement 512 0 r = Undefined ↔ ∃ r1, IsEOF 512 0 r = Returned true r1).
Proof.
  intros r. assert (Hlive : live r) by (split; simpl; eauto).
  split; [exact Hlive|].
  exact (ReadElement_undefined_iff_IsEOF 512 0 r Hlive).
Defined.

(** The stream delivers [<a>] and then [</b>]: the start tag is read,
    and the test that follows reads the second chunk and throws; the
    element read is still there. *)
Lemma reference_survives_test_and_failure_witness :
  let r0 := example_reader [list_byte_of_string "<a>"; list_byte_of_string "</b>"] in
  let r := state_after (ReadElement 512 1 r0) r0 in
  let r1 := state_after (IsEOF 512 1 r) r in
  mpCurrentElement r = Some 1%positive ∧
  IsEOF 512 1 r = Thrown mk_xml_error r1 ∧
  mpCurrentElement r1 = mpCurrentElement r ∧
  (∃ new, mElements r1 = mElements r ++ new) ∧
  ∀ a el, heap r !! a = Some el → heap r1 !! a = Some el.
Proof.
  intros r0 r r1.
  assert (Hc : mpCurrentElement r = Some 1%positive) by (vm_compute; reflexivity).
  assert (HE : IsEOF 512 1 r = Thrown mk_xml_error r1) by (vm_compute; reflexivity).
  split; [exact Hc|]. split; [exact HE|].
  apply (reference_survives_test_and_failure 512 1 r r1).
  right. left. exists mk_xml_error. exact HE.
Defined.

(** The document [<a/>], both its elements read. *)
Lemma end_of_input_is_final_witness :
  let r0 := example_reader [list_byte_of_string "<a/>"] in
  let ra := state_after (ReadElement 512 1 r0) r0 in
  let r := state_after (ReadElement 512 0 ra) ra in
  live r ∧ mpCurrentElement r = Some 2%positive ∧
  IsEOF 512 0 r = Returned true r ∧ rtc (op_step 512) r r ∧
  r = r ∧
  ∀ fuel', IsEOF 512 fuel' r = Returned true r ∧
           ReadElement 512 fuel' r = Undefined.
Proof.
  intros r0 ra r.
  assert (Hlive : live r) by (split; vm_compute; eexists; reflexivity).
  assert (HE : IsEOF 512 0 r = Returned true r) by (vm_compute; reflexivity).
  assert (Hrtc : rtc (op_step 512) r r).
  { apply rtc_once. exact (step_IsEOF 512 r r 0 true HE). }
  split; [exact Hlive|]. split; [vm_compute; reflexivity|].
  split; [exact HE|]. split; [exact Hrtc|].
  exact (end_of_input_is_final 512 0 r r r Hlive HE Hrtc).
Defined.

Lemma reader_without_stream_is_inert_witness :
  let r : XMLReader MemStream.t MiniExpat.parser :=
    XMLReader_new None (Some MiniExpat.XML_ParserCreate) ∅ in
  rtc (op_step 512) r r ∧
  r = r ∧
  ∀ fuel, IsEOF 512 fuel r = Returned true r ∧
          ReadElement 512 fuel r = Undefined.
Proof.
  intros r.
  assert (Hrtc : rtc (op_step 512) r r).
  { apply rtc_once. exact (step_IsEOF 512 r r 3 true eq_refl). }
  split; [exact Hrtc|].
  exact (reader_without_stream_is_inert 512
           (Some MiniExpat.XML_ParserCreate) ∅ r Hrtc).
Defined.

(** Two elements of the example document read, three still pending:
    the destructor empties the free store. *)
Lemma reader_leaves_the_store_as_it_found_it_witness :
  let r0 := example_reader [example_document] in
  let r1 := state_after (ReadElement 512 1 r0) r0 in
  let r2 := state_after (ReadElement 512 0 r1) r1 in
  rtc (op_step 512) r0 r2 ∧ length (mElements r2) = 3 ∧
  wf r2 ∧ XMLReader_delete_checked r2 = Some ∅.
Proof.
  intros r0 r1 r2.
  assert (Hrtc : rtc (op_step 512) r0 r2).
  { apply (rtc_l _ r0 r1 r2).
    - apply (step_ReadElement 512 r0 r1 1 1%positive). vm_compute. reflexivity.
    - apply rtc_once.
      apply (step_ReadElement 512 r1 r2 0 2%positive). vm_compute. reflexivity. }
  split; [exact Hrtc|]. split; [vm_compute; reflexivity|].
  exact (reader_leaves_the_store_as_it_found_it 512
           (Some (MemStream.mk false [example_document]))
           (Some MiniExpat.XML_ParserCreate) ∅ r2 Hrtc).
Defined.

(** The document [<a>hi</a>] in two chunks, cut inside the text. *)
Lemma client_loop_delivers_every_event_witness :
  let cs := [list_byte_of_string "<a>h"; list_byte_of_string "i</a>"] in
  let s := MemStream.mk false cs in
  let p := MiniExpat.XML_ParserCreate in
  delivers 512 s cs ∧
  (feed p cs).1 = [StartElement "a" []; CharacterData "h"; CharacterData "i";
                   EndElement "a"] ∧
  ∃ r', drain 512 7 (XMLReader_new (Some s) (Some p) ∅)
          = Returned (element_of_event <$> (feed p cs).1) r' ∧
        mElements r' = [] ∧ consumed r'.
Proof.
  intros cs s p.
  assert (Hd : delivers 512 s cs).
  { repeat (econstructor; [reflexivity|reflexivity|]). constructor. reflexivity. }
  split; [exact Hd|]. split; [vm_compute; reflexivity|].
  apply (client_loop_delivers_every_event 512 s p cs ∅ 7 Hd).
  - vm_compute. discriminate.
  - vm_compute. lia.
Defined.

Lemma client_loop_fails_on_rejected_input_witness :
  let cs := [mismatched_document] in
  let s := MemStream.mk false cs in
  let p := MiniExpat.XML_ParserCreate in
  delivers 512 s cs ∧ (feed p cs).2 = XML_STATUS_ERROR ∧
  (∀ fuel, length (feed p cs).1 + length cs < fuel →
     ∃ e r', drain 512 fuel (XMLReader_new (Some s) (Some p) ∅) = Thrown e r') ∧
  (∀ fuel es r', drain 512 fuel (XMLReader_new (Some s) (Some p) ∅)
                   ≠ Returned es r').
Proof.
  intros cs s p.
  assert (Hd : delivers 512 s cs).
  { econstructor; [reflexivity|reflexivity|]. constructor. reflexivity. }
  assert (Hbad : (feed p cs).2 = XML_STATUS_ERROR) by (vm_compute; reflexivity).
  split; [exact Hd|]. split; [exact Hbad|].
  exact (client_loop_fails_on_rejected_input 512 s p cs ∅ Hd Hbad).
Defined.

Lemma empty_input_is_end_of_input_witness :
  let r := example_reader [] in
  IsEOF 512 0 r = Returned true r ∧
  drain 512 1 r = Returned [] r ∧
  ReadElement 512 0 r = Undefined.
Proof.
  exact (empty_input_is_end_of_input 512 (MemStream.mk false [])
           MiniExpat.XML_ParserCreate ∅ 0 eq_refl).
Defined.

(** The stream holds [<a>] and then [</a>]: the parse step, with
    iterations to spare, makes one read and leaves the second chunk in
    the stream. *)
Lemma Parse_stops_at_first_event_witness :
  let c1 := list_byte_of_string "<a>" in
  let c2 := list_byte_of_string "</a>" in
  let r := example_reader [c1; c2] in
  ∃ r1, Parse 512 5 r = Returned () r1 ∧
        mpStream r1 = Some (MemStream.mk false [c2]) ∧
        mParser r1 = Some (MiniExpat.mkParser None ["a"] false false 0) ∧
        Forall2 (λ a e, heap r1 !! a = Some e) (mElements r1)
                (element_of_event <$> [StartElement "a" []]).
Proof.
  intros c1 c2 r.
  apply (Parse_stops_at_first_event 512 4 r (MemStream.mk false [c1; c2])
           (MemStream.mk false [c2]) MiniExpat.XML_ParserCreate
           (MiniExpat.mkParser None ["a"] false false 0) c1
           (StartElement "a" []) [] XML_STATUS_OK).
  - reflexivity.
  - reflexivity.
  - reflexivity.
  - reflexivity.
  - reflexivity.
  - vm_compute. reflexivity.
  - discriminate.
Defined.
